(** * vardautomation.comp: frame sampling and comparison sets

    A shallow embedding of [vardautomation/comp.py]: the picture-type
    constrained sampler [_select_samples_with_picture_types], its helper
    [_rand_num_frames], and [make_comps] with the file system, the external
    tools and the upload payload it drives.

    Conventions.
    - Frame numbers and clip lengths are [nat]; the requested count
      ([num], [k]) is a Python [int] and is kept as [Z].
    - Python sets are [gset nat], the [fields] dict is a [gmap string _],
      the [clips] dict is an association list in insertion order.
    - The global [random] module is an explicit list of raw random integers
      that the draws consume from the front; running out of that list stands
      for a draw that has not returned yet.
    - Exceptions are values of [exn]; every function returns the state it
      reached together with how it ended. *)

From stdpp Require Import gmap strings list sorting pretty.
From Stdlib Require Import Ascii ZArith Lia.

Open Scope nat_scope.

(** ** Python values used by the module *)

Inductive exn :=
| ValueError
| RecursionError
| FileExistsError
| FileNotFoundError.

(** How a (sub)computation ended. [Starved] is a draw still waiting for the
    random source; [OutOfFuel] is the bound of a loop of the model. *)
Inductive outcome (A : Type) :=
| Ok (a : A)
| Raised (e : exn)
| Starved
| OutOfFuel.
Arguments Ok {A} a.
Arguments Raised {A} e.
Arguments Starved {A}.
Arguments OutOfFuel {A}.

(** [str.upper] on the ASCII letters. *)
Definition upper_ascii (c : ascii) : ascii :=
  let n := nat_of_ascii c in
  if (97 <=? n) && (n <=? 122) then ascii_of_nat (n - 32) else c.

Fixpoint upper (s : string) : string :=
  match s with
  | EmptyString => EmptyString
  | String c s' => String (upper_ascii c) (upper s')
  end.

(** ** Clips *)

(** A [vs.VideoNode] as the module sees it: its length and the [_PictType]
    frame property of every frame. *)
Record VideoNode := {
  num_frames : nat;
  _PictType : nat -> string
}.

(** ** The random source *)

(** [random.randrange(start, stop)]: one raw integer taken from the source,
    reduced into the range. *)
Definition randrange (start stop : nat) (rand : list nat) : option (nat * list nat) :=
  match rand with
  | [] => None
  | r :: rand' => Some (start + r mod (stop - start), rand')
  end.

(** [_rand_num_frames(checked, rand_func)]: draw until the number drawn is
    not in [checked]. The recursion follows the source of random integers. *)
Fixpoint _rand_num_frames (checked : gset nat) (stop : nat) (rand : list nat)
  : option (nat * list nat) :=
  match rand with
  | [] => None
  | r :: rand' =>
      let rnum := 0 + r mod (stop - 0) in
      if decide (rnum ∈ checked) then _rand_num_frames checked stop rand'
      else Some (rnum, rand')
  end.

(** ** Constrained sampling *)

Definition _MAX_ATTEMPTS_PER_PICTURE_TYPE : nat := 50.

(** The local variables of [_select_samples_with_picture_types], the random
    source, and two logs: the frame numbers whose picture type was read, one
    entry for each time the frames of a candidate are fetched and tested, in
    order, and the sample number named by each [Status.warn]. *)
Record sel_state := {
  samples : gset nat;
  _rnum_checked : gset nat;
  _attempts : nat;
  _max_attempts : nat;
  rand : list nat;
  tested : list nat;
  warned : list nat
}.

Definition sel_init (rand : list nat) : sel_state :=
  {| samples := ∅; _rnum_checked := ∅; _attempts := 0; _max_attempts := 0;
     rand := rand; tested := []; warned := [] |}.

Definition set_rand (st : sel_state) (r : list nat) : sel_state :=
  {| samples := samples st; _rnum_checked := _rnum_checked st;
     _attempts := _attempts st; _max_attempts := _max_attempts st;
     rand := r; tested := tested st; warned := warned st |}.

(** [rnum = _rand_num_frames(...)] followed by [_rnum_checked.add(rnum)]. *)
Definition record_draw (st : sel_state) (rnum : nat) (r : list nat) : sel_state :=
  {| samples := samples st; _rnum_checked := {[rnum]} ∪ _rnum_checked st;
     _attempts := _attempts st; _max_attempts := _max_attempts st;
     rand := r; tested := tested st; warned := warned st |}.

(** The frames [rnum] of the clips are fetched and their [_PictType] is
    read: the log of tested candidates gets an entry, whether or not [rnum]
    was tested before. *)
Definition log_tested (st : sel_state) (rnum : nat) : sel_state :=
  {| samples := samples st; _rnum_checked := _rnum_checked st;
     _attempts := _attempts st; _max_attempts := _max_attempts st;
     rand := rand st; tested := tested st ++ [rnum]; warned := warned st |}.

(** [_attempts += 1; _max_attempts += 1]. *)
Definition count_attempt (st : sel_state) : sel_state :=
  {| samples := samples st; _rnum_checked := _rnum_checked st;
     _attempts := S (_attempts st); _max_attempts := S (_max_attempts st);
     rand := rand st; tested := tested st; warned := warned st |}.

(** [_attempts = 0] at the head of a sample slot. *)
Definition reset_attempts (st : sel_state) : sel_state :=
  {| samples := samples st; _rnum_checked := _rnum_checked st;
     _attempts := 0; _max_attempts := _max_attempts st;
     rand := rand st; tested := tested st; warned := warned st |}.

(** Modelled from the spec: [Status.warn] of the status module, which is not
    among the sources at hand, reports its message and returns. The log
    keeps the sample number [len(samples)] that the message names. *)
Definition warn_slot (st : sel_state) : sel_state :=
  {| samples := samples st; _rnum_checked := _rnum_checked st;
     _attempts := _attempts st; _max_attempts := _max_attempts st;
     rand := rand st; tested := tested st;
     warned := warned st ++ [size (samples st)] |}.

(** [samples.add(rnum)]. *)
Definition add_sample (st : sel_state) (rnum : nat) : sel_state :=
  {| samples := {[rnum]} ∪ samples st; _rnum_checked := _rnum_checked st;
     _attempts := _attempts st; _max_attempts := _max_attempts st;
     rand := rand st; tested := tested st; warned := warned st |}.

Section Sampler.
Variable clips : list VideoNode.
Variable nframes : nat.
Variable k : Z.
Variable p_type : list string.

(** The test of one candidate: every clip's frame [rnum] has its
    [_PictType] in [p_type]. *)
Definition picture_type_ok (rnum : nat) : bool :=
  forallb (fun c => bool_decide (_PictType c rnum ∈ p_type)) clips.

(** The [if all(...)] of the loop (lines 292-295) run in a state: the
    picture types of the frames [rnum] are read, which the log records, and
    the result of the test is returned. *)
Definition test_candidate (st : sel_state) (rnum : nat) : sel_state * bool :=
  (log_tested st rnum, picture_type_ok rnum).

(** The [while True] loop of one sample slot. On [break] it yields the
    last [rnum]. [Status.fail] raises the exception it is given, so the
    picture-type test after it is not reached. *)
Fixpoint slot_loop (fuel : nat) (st : sel_state) : sel_state * outcome nat :=
  match fuel with
  | 0 => (st, OutOfFuel)
  | S fuel' =>
      if decide (size (_rnum_checked st) < nframes) then
        match _rand_num_frames (_rnum_checked st) nframes (rand st) with
        | None => (set_rand st [], Starved)
        | Some (rnum, r) =>
            let '(st1, matched) := test_candidate (record_draw st rnum r) rnum in
            if matched then (st1, Ok rnum)
            else
              let st2 := count_attempt st1 in
              if decide (_MAX_ATTEMPTS_PER_PICTURE_TYPE < _attempts st2)
              then (warn_slot st2, Ok rnum)
              else slot_loop fuel' st2
        end
      else (st, Raised ValueError)
  end.

(** The [while len(samples) < k] loop. *)
Fixpoint sample_loop (fuel : nat) (st : sel_state) : sel_state * outcome unit :=
  match fuel with
  | 0 => (st, OutOfFuel)
  | S fuel' =>
      if decide (Z.of_nat (size (samples st)) < k)%Z then
        let st0 := reset_attempts st in
        match slot_loop (S (length (rand st0))) st0 with
        | (st1, Ok rnum) =>
            if decide (Z.of_nat _MAX_ATTEMPTS_PER_PICTURE_TYPE * k
                       < Z.of_nat (_max_attempts st1))%Z
            then (st1, Raised RecursionError)
            else
              let st2 :=
                if decide (_attempts st1 < _MAX_ATTEMPTS_PER_PICTURE_TYPE)
                then add_sample st1 rnum else st1 in
              sample_loop fuel' st2
        | (st1, Raised e) => (st1, Raised e)
        | (st1, Starved) => (st1, Starved)
        | (st1, OutOfFuel) => (st1, OutOfFuel)
        end
      else (st, Ok tt)
  end.
End Sampler.

(** [_select_samples_with_picture_types(clips, num_frames, k, picture_types)]
    run on the random source [rnd]; the final state keeps the logs. Every
    pass of either loop takes at least one integer from the source or leaves
    the loop, so the bounds given here are never reached. *)
Definition select_run (clips : list VideoNode) (nframes : nat) (k : Z)
    (picture_types : list string) (rnd : list nat) : sel_state * outcome unit :=
  let p_type := map upper picture_types in
  sample_loop clips nframes k p_type (S (length rnd)) (sel_init rnd).

Definition _select_samples_with_picture_types (clips : list VideoNode)
    (nframes : nat) (k : Z) (picture_types : list string) (rnd : list nat)
  : outcome (gset nat) * list nat :=
  match select_run clips nframes k picture_types rnd with
  | (st, Ok _) => (Ok (samples st), rand st)
  | (st, Raised e) => (Raised e, rand st)
  | (st, Starved) => (Starved, rand st)
  | (st, OutOfFuel) => (OutOfFuel, rand st)
  end.

(** ** Python strings *)

(** [str(n)], [f'{n}'] and ["%i" % n] for a natural number. *)
Definition str (n : nat) : string := pretty n.

Fixpoint string_rep (c : ascii) (n : nat) : string :=
  match n with
  | 0 => EmptyString
  | S n' => String c (string_rep c n')
  end.

(** [s.rjust(width, c)]: pad on the left up to [width]. *)
Definition rjust (c : ascii) (width : nat) (s : string) : string :=
  string_rep c (width - String.length s) +:+ s.

(** [s.zfill(width)] for a string without sign. *)
Definition zfill (s : string) (width : nat) : string := rjust "0" width s.

(** [str(b)] for a bool, and [str.lower] on the ASCII letters. *)
Definition str_bool (b : bool) : string := if b then "True" else "False".

Definition lower_ascii (c : ascii) : ascii :=
  let n := nat_of_ascii c in
  if (65 <=? n) && (n <=? 90) then ascii_of_nat (n + 32) else c.

Fixpoint lower (s : string) : string :=
  match s with
  | EmptyString => EmptyString
  | String c s' => String (lower_ascii c) (lower s')
  end.

(** Truth value of an optional list ([None] and the empty list are false). *)
Definition truthy {A : Type} (o : option (list A)) : bool :=
  match o with
  | Some (_ :: _) => true
  | _ => false
  end.

Definition opt_list {A : Type} (o : option (list A)) : list A := default [] o.

(** [for i, x in enumerate(l)] threading a state. *)
Fixpoint fold_enum {A St : Type} (f : St → nat → A → St) (i : nat) (l : list A) (s : St) : St :=
  match l with
  | [] => s
  | x :: l' => fold_enum f (S i) l' (f s i x)
  end.

(** ** printf-style file names of the imwri plugin *)

Definition is_digit (c : ascii) : bool :=
  let n := nat_of_ascii c in (48 <=? n) && (n <=? 57).

Fixpoint read_width (acc : nat) (s : string) : nat * string :=
  match s with
  | EmptyString => (acc, EmptyString)
  | String c s' =>
      if is_digit c then read_width (10 * acc + (nat_of_ascii c - 48)) s'
      else (acc, s)
  end.

(** The first conversion [%[0][width]d] of [fmt] replaced by [n]; a flag
    [0] pads with zeros, no flag pads with spaces. *)
Fixpoint format_int (fmt : string) (n : nat) : string :=
  match fmt with
  | EmptyString => EmptyString
  | String c fmt' =>
      if Ascii.eqb c "%" then
        let '(padc, spec) :=
          match fmt' with
          | String c0 r => if Ascii.eqb c0 "0" then ("0"%char, r) else (" "%char, fmt')
          | EmptyString => (" "%char, fmt')
          end in
        let '(width, rest) := read_width 0 spec in
        match rest with
        | String d rest' =>
            if Ascii.eqb d "d" then rjust padc width (str n) +:+ rest'
            else String c fmt'
        | EmptyString => String c fmt'
        end
      else String c (format_int fmt' n)
  end.

(** ** Writers and file names *)

Inductive Writer := FFMPEG | IMWRI | OPENCV.

(** [VPath / name] and [to_str()], for a [name] that is a single path
    component: for a name that holds a path separator the operator of
    [pathlib] does otherwise (an absolute name replaces [p], and the file
    [name_..png] is not a child of [p / name]), so the statements about the
    directories of the clips ask for plain names (see [plain_name]). *)
Definition path_join (p name : string) : string := p +:+ "/" +:+ name.

(** [f'{name}_' + f'{f}'.zfill(len("%i" % max_num)) + '.png']. *)
Definition image_name (name : string) (max_num f : nat) : string :=
  name +:+ "_" +:+ zfill (str f) (String.length (str max_num)) +:+ ".png".

(** [f'{name}_%' + f'{len("%i" % max_num)}'.zfill(2) + 'd.png']. *)
Definition imwri_pattern (name : string) (max_num : nat) : string :=
  name +:+ "_%" +:+ zfill (str (String.length (str max_num))) 2 +:+ "d.png".

(** ['diff_' + f'{f}'.zfill(len("%i" % max_num)) + '.png']. *)
Definition diff_name (max_num f : nat) : string :=
  "diff_" +:+ zfill (str f) (String.length (str max_num)) +:+ ".png".

(** ** The world around [make_comps] *)

(** What a file holds: the RGB24 PNG of one frame of a named clip (with the
    matrix forced to BT709 or not), the output of [magick compare] on two
    images, or text. *)
Inductive content :=
| PngFrame (clip : string) (frame : nat) (bt709 : bool)
| PngDiff (a b : content)
| TextFile (s : string).

(** A value of the [fields] dict handed to [MultipartEncoder]. *)
Inductive field :=
| FText (s : string)
| FFile (filename : string) (data : content) (mime : string).

Inductive event :=
| EInfo (msg : string)
| EMkdir (dir : string)
| EWrite (dir file : string) (c : content)
| ERun (cmd : string)
| EGet (url : string)
| EPost (url : string) (fields : gmap string field).

(** Directories (by path, each with its files by name), the random module,
    whether [magick] can be started, the identifier the service answers,
    and what happened so far, oldest first. *)
Record world := {
  fs : gmap string (gmap string content);
  random : list nat;
  magick_found : bool;
  slowpics_reply : string;
  events : list event
}.

Record M (A : Type) : Type := Comp { run : world → world * outcome A }.
Arguments Comp {A} _.
Arguments run {A} _ _.

#[global] Instance M_ret : MRet M := fun A a => Comp (fun w => (w, Ok a)).

#[global] Instance M_bind : MBind M := fun A B f m =>
  Comp (fun w =>
    match run m w with
    | (w', Ok a) => run (f a) w'
    | (w', Raised e) => (w', Raised e)
    | (w', Starved) => (w', Starved)
    | (w', OutOfFuel) => (w', OutOfFuel)
    end).

(** [raise e]. *)
Definition raise {A : Type} (e : exn) : M A := Comp (fun w => (w, Raised e)).

(** Modelled from the spec: [Status.fail(msg, exception=e)] of the status
    module, which is not among the sources at hand; it reports [msg] and
    raises [e]. *)
Definition Status_fail {A : Type} (e : exn) : M A := raise e.

(** [try: m  except e: handler e]. *)
Definition try_except {A : Type} (m : M A) (handler : exn → option (M A)) : M A :=
  Comp (fun w =>
    match run m w with
    | (w', Raised e) =>
        match handler e with
        | Some h => run h w'
        | None => (w', Raised e)
        end
    | r => r
    end).

Definition emit (ev : event) : M unit :=
  Comp (fun w =>
    ({| fs := fs w; random := random w; magick_found := magick_found w;
        slowpics_reply := slowpics_reply w; events := events w ++ [ev] |}, Ok tt)).

Definition set_fs (f : gmap string (gmap string content)) : M unit :=
  Comp (fun w =>
    ({| fs := f; random := random w; magick_found := magick_found w;
        slowpics_reply := slowpics_reply w; events := events w |}, Ok tt)).

Definition get_world : M world := Comp (fun w => (w, Ok w)).

(** Modelled from the spec: [Status.info(msg)] of the status module, which
    is not among the sources at hand; it reports [msg] and returns. *)
Definition Status_info (msg : string) : M unit := emit (EInfo msg).

(** [p.mkdir(parents=True)]. *)
Definition mkdir (p : string) : M unit :=
  w ← get_world;
  match fs w !! p with
  | Some _ => raise FileExistsError
  | None => set_fs (<[p := ∅]> (fs w)) ;; emit (EMkdir p)
  end.

(** One image file written by a writer or by [magick compare]. *)
Definition write_file (dir file : string) (c : content) : M unit :=
  w ← get_world;
  set_fs (<[dir := <[file := c]> (default ∅ (fs w !! dir))]> (fs w)) ;;
  emit (EWrite dir file c).

Fixpoint write_files (dir : string) (files : list (string * content)) : M unit :=
  match files with
  | [] => mret tt
  | (file, c) :: files' => write_file dir file c ;; write_files dir files'
  end.

Fixpoint ends_with_png (s : string) : bool :=
  match s with
  | EmptyString => false
  | String c s' => String.eqb s ".png" || ends_with_png s'
  end.

(** The order of [sorted] on the paths of one directory: by file name. *)
Definition by_name (a b : string * content) : Prop := String.le a.1 b.1.

#[global] Instance by_name_dec : RelDecision by_name.
Proof. intros a b. unfold by_name. apply _. Defined.

(** [sorted(dir.glob('*.png'))]: the files of [dir] named [*.png], by name;
    each with what [read_bytes()] returns for it. *)
Definition sorted_glob_png (w : world) (dir : string) : list (string * content) :=
  merge_sort by_name
    (filter (fun a => ends_with_png a.1 = true)
       (map_to_list (default ∅ (fs w !! dir)))).

(** An image file found by [glob]: its directory, its name and what
    [read_bytes()] returns. *)
Record image := {
  img_dir : string;
  img_name : string;
  img_bytes : content
}.

Definition img_path (i : image) : string := path_join (img_dir i) (img_name i).

(** [sorted(dir.glob('*.png'))] as paths. *)
Definition glob_images (w : world) (dir : string) : list image :=
  map (fun a => {| img_dir := dir; img_name := a.1; img_bytes := a.2 |})
    (sorted_glob_png w dir).

(** ** Unconstrained sampling *)

(** [random.sample(population, k)] of the standard library: [k] draws without
    replacement, each taking one raw integer; [ValueError] when [k] is
    negative or larger than the population. *)
Fixpoint sample_pool (pool : list nat) (k : nat) (rnd : list nat)
  : outcome (list nat) * list nat :=
  match k with
  | 0 => (Ok [], rnd)
  | S k' =>
      match rnd with
      | [] => (Starved, [])
      | r :: rnd' =>
          let j := r mod length pool in
          match pool !! j with
          | None => (Raised ValueError, rnd')
          | Some x =>
              match sample_pool (delete j pool) k' rnd' with
              | (Ok xs, rest) => (Ok (x :: xs), rest)
              | other => other
              end
          end
      end
  end.

Definition random_sample (population : list nat) (k : Z) (rnd : list nat)
  : outcome (list nat) * list nat :=
  if decide (0 ≤ k ≤ Z.of_nat (length population))%Z
  then sample_pool population (Z.to_nat k) rnd
  else (Raised ValueError, rnd).

(** [lens.pop()] on the set of clip lengths. *)
Definition set_pop (s : gset nat) : nat := default 0 (head (elements s)).

(** A function of the random module run inside [make_comps]. *)
Definition with_random {A : Type} (f : list nat → outcome A * list nat) : M A :=
  Comp (fun w =>
    let '(o, r) := f (random w) in
    ({| fs := fs w; random := r; magick_found := magick_found w;
        slowpics_reply := slowpics_reply w; events := events w |}, o)).

(** ** make_comps, block by block *)

(** [# Make samples] (lines 119-124). *)
Definition make_samples (clips : list (string * VideoNode)) (lens : gset nat)
    (num : Z) (picture_types : option (list string)) : M (gset nat) :=
  if truthy picture_types then
    Status_info "make_comps: Make samples according to specified picture types..." ;;
    with_random (_select_samples_with_picture_types (map snd clips) (set_pop lens)
                   num (opt_list picture_types))
  else
    l ← with_random (random_sample (seq 0 (set_pop lens)) num);
    mret (list_to_set l).

(** [# Add additionnal frames if frame exists] (lines 126-130): the pair
    [(max_num, frames)]. *)
Definition add_frames (samples : gset nat) (frames : option (list nat))
  : M (nat * list nat) :=
  let samples := if truthy frames then samples ∪ list_to_set (opt_list frames)
                 else samples in
  if decide (elements samples = []) then raise ValueError
  else mret (max_list (elements samples), merge_sort (≤) (elements samples)).

(** The files a writer leaves in the directory of a clip: frame [n] of
    [select_frames(clip, frames)] is frame [frames[n]] of the clip. *)
Definition extract_files (writer : Writer) (name : string) (force_bt709 : bool)
    (max_num : nat) (frames : list nat) : list (string * content) :=
  match writer with
  | FFMPEG =>
      let path_images := map (image_name name max_num) frames in
      zip_with (fun p f => (p, PngFrame name f force_bt709)) path_images frames
  | IMWRI =>
      map (fun f => (format_int (imwri_pattern name max_num) f,
                     PngFrame name f force_bt709)) frames
  | OPENCV =>
      let path_images := map (image_name name max_num) frames in
      zip_with (fun p f => (p, PngFrame name f force_bt709)) path_images frames
  end.

(** The output arguments of the ffmpeg settings (lines 164-166):
    [outputs += ['-pred', 'mixed', '-ss', f'{i}', '-t', '1', path_image]]
    for every [i, path_image] of [enumerate(path_images)]. *)
Fixpoint ffmpeg_outputs (i : nat) (path_images : list string) : list string :=
  match path_images with
  | [] => []
  | path_image :: rest =>
      ["-pred"; "mixed"; "-ss"; str i; "-t"; "1"; path_image]
      ++ ffmpeg_outputs (S i) rest
  end.

(** A command line from its words. *)
Fixpoint join_words (words : list string) : string :=
  match words with
  | [] => EmptyString
  | [word] => word
  | word :: rest => word +:+ " " +:+ join_words rest
  end.

(** Modelled from the spec: [VideoEncoder(BinaryPath.ffmpeg, settings,
    ...).run_enc(clip, None, y4m=False)] of the tooling package, which is
    not among the sources at hand: ffmpeg is started with the settings, is
    fed the clip and writes the outputs the settings name. The command
    logged is the binary with the output arguments; the arguments before
    them describe the input by the size and the rate of the clip, which
    [VideoNode] does not hold. *)
Definition run_ffmpeg (dir : string) (files : list (string * content)) : M unit :=
  emit (ERun (join_words
                ("ffmpeg" :: ffmpeg_outputs 0 (map (fun a => path_join dir a.1) files)))) ;;
  write_files dir files.

(** The body of [for name, clip in clips.items()] (lines 140-201): the
    ffmpeg writer hands the frames to an external command, the two others
    write the images from inside the process. *)
Definition extract_clip (path : string) (writer : Writer) (force_bt709 : bool)
    (max_num : nat) (frames : list nat) (name : string) : M unit :=
  let path_name := path_join path name in
  try_except (mkdir path_name)
    (fun e => match e with
              | FileExistsError => Some (Status_fail FileExistsError)
              | _ => None
              end) ;;
  match writer with
  | FFMPEG =>
      run_ffmpeg path_name (extract_files writer name force_bt709 max_num frames)
  | IMWRI | OPENCV =>
      write_files path_name (extract_files writer name force_bt709 max_num frames)
  end.

Fixpoint for_each {A : Type} (body : A → M unit) (l : list A) : M unit :=
  match l with
  | [] => mret tt
  | x :: l' => body x ;; for_each body l'
  end.

(** [f'magick compare "{i1}" "{i2}" "{path_diff}/diff_....png"']. *)
Definition dquote : string := String (ascii_of_nat 34) EmptyString.

Definition magick_cmd (path_diff : string) (max_num : nat) (i1 i2 : image) (f : nat)
  : string :=
  "magick compare " +:+ dquote +:+ img_path i1 +:+ dquote +:+ " "
  +:+ dquote +:+ img_path i2 +:+ dquote +:+ " "
  +:+ dquote +:+ path_diff +:+ "/" +:+ diff_name max_num f +:+ dquote.

(** Modelled from the spec: [SubProcessAsync(cmds)] of the tooling package,
    which is not part of the sources at hand. Every command is started and
    all are awaited; [magick compare a b out] writes the difference image of
    [a] and [b] to [out]. *)
Fixpoint SubProcessAsync (path_diff : string) (max_num : nat)
    (jobs : list (image * image * nat)) : M unit :=
  match jobs with
  | [] => mret tt
  | (i1, i2, f) :: jobs' =>
      emit (ERun (magick_cmd path_diff max_num i1 i2 f)) ;;
      write_file path_diff (diff_name max_num f)
        (PngDiff (img_bytes i1) (img_bytes i2)) ;;
      SubProcessAsync path_diff max_num jobs'
  end.

(** [# Make diff images] (lines 204-228). *)
Definition make_diffs (clips : list (string * VideoNode)) (path : string)
    (max_num : nat) (frames : list nat) : M unit :=
  (if decide (2 < length clips) then Status_fail ValueError else mret tt) ;;
  let path_diff := path_join path "diffs" in
  try_except
    (w ← get_world;
     (if magick_found w then emit (ERun "magick compare")
      else raise FileNotFoundError) ;;
     mkdir path_diff)
    (fun e => match e with
              | FileNotFoundError => Some (Status_fail FileNotFoundError)
              | FileExistsError => Some (Status_fail FileExistsError)
              | _ => None
              end) ;;
  w ← get_world;
  let all_images := map (fun name => glob_images w (path_join path name))
                      (map fst clips) in
  match all_images with
  | [images_a; images_b] =>
      let jobs := zip (zip images_a images_b) frames in
      Status_info "Diffing clips..." ;;
      SubProcessAsync path_diff max_num jobs
  | _ => raise ValueError
  end.

(** The three entries written for frame position [j] of source [i]
    (lines 249-251). *)
Definition add_image_fields (i : nat) (name : string) (fields : gmap string field)
    (j : nat) (x : image * nat) : gmap string field :=
  let '(image, frame) := x in
  <["comparisons[" +:+ str j +:+ "].images[" +:+ str i +:+ "].file"
      := FFile (img_name image) (img_bytes image) "image/png"]>
    (<["comparisons[" +:+ str j +:+ "].images[" +:+ str i +:+ "].name" := FText name]>
       (<["comparisons[" +:+ str j +:+ "].name" := FText (str frame)]> fields)).

(** The [fields] dict (lines 237-251). *)
Definition build_fields (names : list string) (all_images : list (list image))
    (frames : list nat) (collection_name : string) (public : bool)
  : gmap string field :=
  let fields : gmap string field :=
    <["hentai" := FText "false"]>
      (<["optimizeImages" := FText "true"]>
         (<["public" := FText (lower (str_bool public))]>
            (<["collectionName" := FText collection_name]> ∅))) in
  fold_enum
    (fun fields i (x : string * list image) =>
       fold_enum (add_image_fields i x.1) 0 (zip x.2 frames) fields)
    0 (zip names all_images) fields.

Definition newline : string := String (ascii_of_nat 10) EmptyString.

(** [# Upload to slow.pics] (lines 231-270); the HTTP session is reduced to
    its two requests and to the identifier the service answers. *)
Definition upload_slowpics (clips : list (string * VideoNode)) (path : string)
    (frames : list nat) (magick_compare : bool) (collection_name : string)
    (public : bool) : M unit :=
  w ← get_world;
  let path_diff := path_join path "diffs" in
  let all_images :=
    map (fun name => glob_images w (path_join path name)) (map fst clips)
    ++ (if magick_compare then [glob_images w path_diff] else []) in
  let fields :=
    build_fields (map fst clips ++ (if magick_compare then ["diff"] else []))
      all_images frames collection_name public in
  emit (EGet "https://slow.pics/api/comparison") ;;
  Status_info "Uploading images..." ;;
  emit (EPost "https://slow.pics/api/comparison" fields) ;;
  let slowpics_url := "https://slow.pics/c/" +:+ slowpics_reply w in
  Status_info ("Slowpics url: " +:+ slowpics_url) ;;
  write_file path "slow.pics.url"
    (TextFile ("[InternetShortcut]" +:+ newline +:+ "URL=" +:+ slowpics_url)) ;;
  Status_info "url file copied".

(** Lines 114-130: the length check, the samples and the frame list; the
    pair returned is [(max_num, frames)]. *)
Definition plan_frames (clips : list (string * VideoNode)) (num : Z)
    (frames : option (list nat)) (picture_types : option (list string))
  : M (nat * list nat) :=
  let lens : gset nat := list_to_set (map (fun c => num_frames c.2) clips) in
  (if decide (size lens ≠ 1) then Status_fail ValueError else mret tt) ;;
  samples ← make_samples clips lens num picture_types;
  add_frames samples frames.

(** Lines 132-201: the comparison folder and the images of every clip. *)
Definition extract_all (clips : list (string * VideoNode)) (path : string)
    (force_bt709 : bool) (writer : Writer) (max_num : nat) (frames : list nat)
  : M unit :=
  try_except (mkdir path)
    (fun e => match e with
              | FileExistsError => Some (Status_fail ValueError)
              | _ => None
              end) ;;
  for_each (fun c => extract_clip path writer force_bt709 max_num frames c.1) clips.

(** [make_comps] (lines 106-270). *)
Definition make_comps (clips : list (string * VideoNode)) (path : string)
    (num : Z) (frames : option (list nat)) (picture_types : option (list string))
    (force_bt709 : bool) (writer : Writer) (magick_compare slowpics : bool)
    (collection_name : string) (public : bool) : M unit :=
  mf ← plan_frames clips num frames picture_types;
  let max_num := mf.1 in
  let frames := mf.2 in
  extract_all clips path force_bt709 writer max_num frames ;;
  (if magick_compare then make_diffs clips path max_num frames else mret tt) ;;
  (if slowpics
   then upload_slowpics clips path frames magick_compare collection_name public
   else mret tt).

(** ** Predicates used by the statements *)

Definition sel_inv (clips : list VideoNode) (nframes : nat) (p_type : list string)
    (st : sel_state) : Prop :=
  NoDup (tested st)
  ∧ (∀ x, x ∈ tested st ↔ x ∈ _rnum_checked st)
  ∧ samples st ⊆ _rnum_checked st
  ∧ (∀ x, x ∈ samples st → picture_type_ok clips p_type x = true)
  ∧ (∀ x, x ∈ _rnum_checked st → x < nframes).

Definition covers (L : nat) (r : list nat) : bool :=
  forallb (fun i => existsb (fun x => x mod L =? i) r) (seq 0 L).

Inductive rounds (L : nat) : nat → list nat → Prop :=
| rounds_O rnd : rounds L 0 rnd
| rounds_S m r rnd :
    covers L r = true → rounds L m rnd → rounds L (S m) (r ++ rnd).

Definition fed (nframes : nat) (st : sel_state) : Prop :=
  ∃ m, rounds nframes m (rand st) ∧ nframes ≤ size (_rnum_checked st) + m.

Definition matching (clips : list VideoNode) (p_type : list string) (nframes : nat)
  : list nat :=
  filter (fun i => picture_type_ok clips p_type i = true) (seq 0 nframes).

Definition ci_member (tag : string) (picture_types : list string) : Prop :=
  ∃ p, p ∈ picture_types ∧ upper tag = upper p.


(** Every character of [s] passes [P]. *)
Fixpoint all_chars (P : ascii → bool) (s : string) : bool :=
  match s with
  | EmptyString => true
  | String c s' => P c && all_chars P s'
  end.

(** A clip name that the printf-style pattern of the imwri writer leaves
    alone. *)
Definition no_percent (s : string) : bool :=
  all_chars (fun c => negb (Ascii.eqb c "%")) s.


(** The number a run of digits stands for, continuing from [acc]. *)
Fixpoint digits_value (acc : nat) (s : string) : nat :=
  match s with
  | EmptyString => acc
  | String c s' => digits_value (10 * acc + (nat_of_ascii c - 48)) s'
  end.

(** The padding character a writer ends up with: zeros, except for the
    imwri pattern once the width has two digits. *)
Definition pad_char (writer : Writer) (max_num : nat) : ascii :=
  match writer with
  | IMWRI => if decide (String.length (str max_num) < 10) then "0" else " "
  | _ => "0"
  end%char.

(** The name of the image of frame [f], for every writer. *)
Definition frame_file (writer : Writer) (name : string) (max_num f : nat) : string :=
  name +:+ "_"
  +:+ rjust (pad_char writer max_num) (String.length (str max_num)) (str f)
  +:+ ".png".

(** A directory after a list of files was written into it, in order. *)
Definition put_files (d : gmap string content) (files : list (string * content))
  : gmap string content :=
  foldl (fun m a => <[a.1 := a.2]> m) d files.

(** The difference image a job of [SubProcessAsync] writes. *)
Definition job_file (max_num : nat) (job : image * image * nat) : string * content :=
  (diff_name max_num job.2, PngDiff (img_bytes job.1.1) (img_bytes job.1.2)).











(** The character of a decimal digit. *)
Definition digit_char (n : nat) : ascii := ascii_of_nat (48 + n).

(** ** Inputs of the examples *)

(** Twenty frames, an I frame at every fifth. *)
Definition gop_clip : VideoNode :=
  {| num_frames := 20;
     _PictType := fun n => if decide (n mod 5 = 0) then "I" else "P" |}.

(** [n] frames, only P frames before frame 50 and only I frames from there. *)
Definition late_I_clip (n : nat) : VideoNode :=
  {| num_frames := n;
     _PictType := fun i => if decide (50 ≤ i) then "I" else "P" |}.

(** Three frames, no I frame. *)
Definition p_only_clip : VideoNode :=
  {| num_frames := 3; _PictType := fun _ => "P" |}.

(** An empty disk, [magick] installed, and a random module that will answer
    [rnd]. *)
Definition world_init (rnd : list nat) : world :=
  {| fs := ∅; random := rnd; magick_found := true; slowpics_reply := "Ab1";
     events := [] |}.

Definition two_clips : list (string * VideoNode) := [("A", gop_clip); ("B", gop_clip)].

Definition three_clips : list (string * VideoNode) :=
  [("A", gop_clip); ("B", gop_clip); ("C", gop_clip)].

(** Two clips, three samples and two extra frames, written by the imwri
    plugin, diffed and uploaded. *)
Definition demo_upload_run : world * outcome unit :=
  run (make_comps two_clips "comps" 3 (Some [7; 12]) None false IMWRI
         true true "col" true) (world_init [5; 3; 100]).

(** ** Predicates of the further statements *)

(** The frame numbers below [nframes] that fail the picture-type test. *)
Definition failing (clips : list VideoNode) (p_type : list string) (nframes : nat)
  : list nat :=
  filter (fun i => picture_type_ok clips p_type i = false) (seq 0 nframes).

(** A selection state in which no match was dropped so far: every checked
    frame number that passes the test is a sample, and every failed test was
    counted. *)
Definition tidy (clips : list VideoNode) (nframes : nat) (p_type : list string)
    (st : sel_state) : Prop :=
  sel_inv clips nframes p_type st
  ∧ (∀ x, x ∈ _rnum_checked st → picture_type_ok clips p_type x = true → x ∈ samples st)
  ∧ _attempts st ≤ _max_attempts st
  ∧ _max_attempts st + size (samples st) ≤ size (_rnum_checked st).

(** A computation keeps the relation [R] between the world it starts in and
    the world it leaves, however it ends. *)
Definition respects (R : relation world) {A : Type} (m : M A) : Prop :=
  ∀ w, R w (run m w).1.

(** The second world has the tools of the first: [magick] as it was found
    and the answer of the service. *)
Definition same_tools (w w' : world) : Prop :=
  magick_found w' = magick_found w ∧ slowpics_reply w' = slowpics_reply w.

(** The second world has the disk of the first. *)
Definition same_disk (w w' : world) : Prop := fs w' = fs w.

(** The second world has the log of the first, followed by events that all
    satisfy [P]. *)
Definition logs (P : event → Prop) (w w' : world) : Prop :=
  ∃ evs, events w' = events w ++ evs ∧ Forall P evs.

(** Every directory of the first world is in the second with the same
    files. *)
Definition keeps_dirs (w w' : world) : Prop :=
  ∀ p, is_Some (fs w !! p) → fs w' !! p = fs w !! p.

(** A request sent to the service. *)
Definition is_network (ev : event) : bool :=
  match ev with
  | EGet _ | EPost _ _ => true
  | _ => false
  end.

(** A command handed to the system. *)
Definition is_process (ev : event) : bool :=
  match ev with
  | ERun _ => true
  | _ => false
  end.

(** ** The progress report of the extraction *)

(** [str(n)] for a Python [int]. *)
Definition str_int (n : Z) : string := pretty n.

(** [_progress_update_func(value, endvalue)]: the text printed. [None]
    stands for the [ZeroDivisionError] of the floor division. *)
Definition _progress_update_func (value endvalue : Z) : option string :=
  if decide (endvalue = 0)%Z then None
  else Some (String (ascii_of_nat 13) "Extrating image: " +:+ str_int value
             +:+ "/" +:+ str_int endvalue
             +:+ " ~ " +:+ str_int (100 * value / endvalue) +:+ "%").

(** * vardautomation.utils: properties read from the parameters and the clip *)

Module Properties.

(** The exceptions the methods raise, by themselves or through
    [Status.fail], which raises the exception it is given (see
    [Status_fail]). *)
Inductive raised :=
| ValueError
| IndexError
| KeyError
| AssertionError
| vs_Error.

Inductive result (A : Type) :=
| Return (a : A)
| Raise (e : raised).
Arguments Return {A} a.
Arguments Raise {A} e.

(** [vs.ColorFamily]; [OTHER] stands for any member besides the three the
    module names. *)
Inductive ColorFamily := GRAY | YUV | RGB | OTHER.

(** A [vs.VideoFormat] as the module reads it. *)
Record VideoFormat := {
  color_family : ColorFamily;
  bits_per_sample : Z;
  subsampling_w : Z;
  subsampling_h : Z
}.

(** A [vs.VideoNode] as the module reads it: its format, if constant, and
    the integer properties of its first frame. *)
Record Clip := {
  format : option VideoFormat;
  props : gmap string Z
}.

(** [a << n] on Python integers. *)
Definition lshift (a n : Z) : result Z :=
  if decide (n < 0)%Z then Raise ValueError else Return (Z.shiftl a n).

(** [l.index(x)]. *)
Fixpoint index (x : string) (l : list string) : option nat :=
  match l with
  | [] => None
  | y :: l' => if decide (y = x) then Some 0 else S <$> index x l'
  end.

(** [Properties.get_depth(clip)]. *)
Definition get_depth (clip : Clip) : result Z :=
  match format clip with
  | None => Raise AssertionError
  | Some f => Return (bits_per_sample f)
  end.

(** [min_luma = 16 << (bits - 8); max_luma = 235 << (bits - 8)]. *)
Definition limited_range (bits : Z) : result (Z * Z) :=
  match lshift 16 (bits - 8) with
  | Raise e => Raise e
  | Return min_luma =>
      match lshift 235 (bits - 8) with
      | Raise e => Raise e
      | Return max_luma => Return (min_luma, max_luma)
      end
  end.

(** [min_luma = 0; max_luma = (1 << bits) - 1]. *)
Definition full_range (bits : Z) : result (Z * Z) :=
  match lshift 1 bits with
  | Raise e => Raise e
  | Return m => Return (0, m - 1)%Z
  end.

(** [Properties.get_colour_range(params, clip)]. *)
Definition get_colour_range (params : list string) (clip : Clip) : result (Z * Z) :=
  match get_depth clip with
  | Raise e => Raise e
  | Return bits =>
      match index "--range" params with
      | Some i =>
          match params !! (i + 1) with
          | None => Raise IndexError
          | Some rng_param =>
              if decide (rng_param = "limited") then limited_range bits
              else if decide (rng_param = "full") then full_range bits
              else Raise ValueError
          end
      | None =>
          match props clip !! "_ColorRange" with
          | Some color_rng =>
              if decide (color_rng = 1)%Z then limited_range bits
              else if decide (color_rng = 0)%Z then full_range bits
              else Raise vs_Error
          | None => Raise ValueError
          end
      end
  end.

(** [_get_csp_subsampled(format_clip)] of [get_csp]. *)
Definition _get_csp_subsampled (format_clip : VideoFormat) : result string :=
  let sub_w := subsampling_w format_clip in
  let sub_h := subsampling_h format_clip in
  if decide (sub_w = 0 ∧ sub_h = 0)%Z then Return "i444"
  else if decide (sub_w = 1 ∧ sub_h = 0)%Z then Return "i422"
  else if decide (sub_w = 1 ∧ sub_h = 1)%Z then Return "i420"
  else Raise ValueError.

(** [Properties.get_csp(clip)]: the dict [csp_avc] is built, with the value
    of its [vs.YUV] entry computed, before the colour family is looked up. *)
Definition get_csp (clip : Clip) : result string :=
  match format clip with
  | None => Raise AssertionError
  | Some f =>
      match _get_csp_subsampled f with
      | Raise e => Raise e
      | Return yuv =>
          match color_family f with
          | GRAY => Return "i400"
          | YUV => Return yuv
          | RGB => Return "rgb"
          | OTHER => Raise KeyError
          end
      end
  end.

End Properties.

(** * Facts about the sampler *)

Lemma _rand_num_frames_unfold checked stop rnd :
  _rand_num_frames checked stop rnd
  = match randrange 0 stop rnd with
    | None => None
    | Some (rnum, rnd') =>
        if decide (rnum ∈ checked) then _rand_num_frames checked stop rnd'
        else Some (rnum, rnd')
    end.
Proof. by destruct rnd. Qed.

Lemma _rand_num_frames_spec checked stop rnd rnum rest :
  _rand_num_frames checked stop rnd = Some (rnum, rest) →
  (rnum ∉ checked) ∧ length rest < length rnd ∧ (0 < stop → rnum < stop).
Proof.
  induction rnd as [|r rnd IH]; simpl; [done|].
  case_decide as Hin.
  - intros H. destruct (IH H) as (? & ? & ?). repeat split; auto with lia.
  - intros [= <- <-]. repeat split; [done|lia|].
    intros. rewrite Nat.sub_0_r. apply Nat.mod_upper_bound. lia.
Qed.

Ltac fin := simpl; try done; try lia; try (unfold _MAX_ATTEMPTS_PER_PICTURE_TYPE in *; lia).

Section SamplerFacts.
Variable clips : list VideoNode.
Variable nframes : nat.
Variable k : Z.
Variable p_type : list string.

Local Abbreviation inv := (sel_inv clips nframes p_type).
Local Abbreviation slot := (slot_loop clips nframes p_type).
Local Abbreviation loop := (sample_loop clips nframes k p_type).

Lemma inv_record_draw st rnum r :
  inv st → rnum ∉ _rnum_checked st → rnum < nframes →
  inv (log_tested (record_draw st rnum r) rnum).
Proof.
  intros (Hnd & Heq & Hsub & Hok & Hlt) Hfresh Hr.
  repeat split; simpl.
  - apply NoDup_app. repeat split; [done| |apply NoDup_singleton].
    intros x Hx ->%list_elem_of_singleton. by apply Hfresh, Heq.
  - rewrite elem_of_app, list_elem_of_singleton, Heq. set_solver.
  - rewrite elem_of_app, list_elem_of_singleton, Heq. set_solver.
  - set_solver.
  - done.
  - intros x [->%elem_of_singleton|?]%elem_of_union; auto.
Qed.

Lemma slot_loop_inv fuel st st1 o :
  slot fuel st = (st1, o) → inv st →
  inv st1 ∧ samples st1 = samples st
  ∧ _max_attempts st ≤ _max_attempts st1
  ∧ _rnum_checked st ⊆ _rnum_checked st1
  ∧ length (rand st1) ≤ length (rand st)
  ∧ match o with
    | Ok r =>
        r ∈ _rnum_checked st1 ∧ (r ∉ _rnum_checked st)
        ∧ length (rand st1) < length (rand st)
        ∧ (picture_type_ok clips p_type r = true ∧ _attempts st1 ≤ Nat.max (_attempts st) _MAX_ATTEMPTS_PER_PICTURE_TYPE
           ∧ warned st1 = warned st
           ∨ picture_type_ok clips p_type r = false
             ∧ _MAX_ATTEMPTS_PER_PICTURE_TYPE < _attempts st1
             ∧ warned st1 = warned st ++ [size (samples st)])
    | Raised e => e = ValueError ∧ nframes ≤ size (_rnum_checked st1)
    | Starved => rand st1 = [] ∧ size (_rnum_checked st1) < nframes
    | OutOfFuel => fuel ≤ length (rand st)
    end.
Proof.
  revert st. induction fuel as [|fuel IH]; intros st; simpl.
  { intros [= <- <-] Hinv. split_and!; fin. }
  case_decide as Hsz; [|intros [= <- <-] Hinv; split_and!; fin].
  destruct (_rand_num_frames _ _ _) as [[rnum r]|] eqn:Hdraw;
    [|intros [= <- <-] Hinv; split_and!; fin].
  apply _rand_num_frames_spec in Hdraw as (Hfresh & Hlen & Hrange).
  assert (rnum < nframes) as Hr by (apply Hrange; lia).
  pose proof (inv_record_draw st rnum r) as Hrec.
  destruct (picture_type_ok clips p_type rnum) eqn:Hpt.
  { clear IH. intros [= <- <-] Hinv. split; [by apply Hrec|].
    split_and!; fin; try set_solver. left. split_and!; fin. }
  case_decide as Hcap.
  { clear IH. intros [= <- <-] Hinv. split; [by apply Hrec|].
    split_and!; fin; try set_solver. }
  intros Hrun Hinv.
  apply IH in Hrun; [|by apply Hrec]. clear IH Hrec.
  destruct Hrun as (Hinv1 & Hs & Hm & Hc & Hl & Ho). simpl in Hs, Hm, Hc, Hl.
  split; [done|]. split_and!; fin; [set_solver|].
  destruct o as [r'| | |]; simpl in Ho |- *; fin.
  destruct Ho as (? & ? & ? & Hcase). split_and!; fin; [set_solver|].
  destruct Hcase as [(? & ? & ?)|(? & ? & ?)]; [left|right]; split_and!; fin.
Qed.
End SamplerFacts.

Section SampleLoopFacts.
Variable clips : list VideoNode.
Variable nframes : nat.
Variable k : Z.
Variable p_type : list string.

Local Abbreviation inv := (sel_inv clips nframes p_type).
Local Abbreviation slot := (slot_loop clips nframes p_type).
Local Abbreviation loop := (sample_loop clips nframes k p_type).

Local Arguments slot_loop : simpl never.

Lemma inv_reset_attempts st : inv st → inv (reset_attempts st).
Proof. done. Qed.

Lemma inv_add_sample st r :
  inv st → r ∈ _rnum_checked st → picture_type_ok clips p_type r = true →
  inv (add_sample st r).
Proof.
  intros (Hnd & Heq & Hsub & Hok & Hlt) Hr Hpt. split_and!; simpl; try done.
  - set_solver.
  - intros x [->%elem_of_singleton|?]%elem_of_union; auto.
Qed.

Lemma size_add_fresh (s : gset nat) r : r ∉ s → size ({[r]} ∪ s) = S (size s).
Proof. intros. rewrite size_union, size_singleton by set_solver. done. Qed.

Lemma sample_loop_inv fuel st st1 o :
  loop fuel st = (st1, o) → inv st →
  (Z.of_nat (size (samples st)) ≤ Z.max 0 k)%Z →
  (Z.of_nat (_max_attempts st) ≤ 50 * Z.max 0 k)%Z →
  inv st1
  ∧ (Z.of_nat (size (samples st1)) ≤ Z.max 0 k)%Z
  ∧ match o with
    | Ok _ =>
        Z.of_nat (size (samples st1)) = Z.max 0 k
        ∧ (Z.of_nat (_max_attempts st1) ≤ 50 * Z.max 0 k)%Z
    | Raised e =>
        (Z.of_nat (size (samples st1)) < k)%Z
        ∧ (e = ValueError ∧ nframes ≤ size (_rnum_checked st1)
           ∨ e = RecursionError ∧ (50 * k < Z.of_nat (_max_attempts st1))%Z)
    | Starved => rand st1 = [] ∧ size (_rnum_checked st1) < nframes
    | OutOfFuel => fuel ≤ length (rand st)
    end.
Proof.
  revert st. induction fuel as [|fuel IH]; intros st; simpl.
  { intros [= <- <-] Hinv Hsz Hmax. split_and!; fin. }
  case_decide as Hk; [|intros [= <- <-] Hinv Hsz Hmax; split_and!; fin].
  destruct (slot _ _) as [st1' o'] eqn:Hslot.
  intros Hrun Hinv Hsz Hmax.
  apply slot_loop_inv in Hslot as (Hinv1 & Hs & Hm & Hc & Hl & Ho);
    [|by apply inv_reset_attempts].
  simpl in Hs, Hm, Hc, Hl, Ho.
  destruct o' as [rnum|e| |]; simpl in Ho.
  - destruct Ho as (Hin & Hfresh & Hlen & Hcase).
    case_decide as Hbudget.
    { injection Hrun as <- <-. rewrite Hs. split_and!; fin. right. split; fin. }
    assert (rnum ∉ samples st) as Hnew.
    { intros ?. apply Hfresh. by apply Hinv. }
    case_decide as Hadd.
    + assert (picture_type_ok clips p_type rnum = true) as Hpt.
      { destruct Hcase as [(? & _)|(_ & ? & _)]; [done|fin]. }
      apply IH in Hrun; simpl.
      * destruct Hrun as (? & ? & Hout). split_and!; fin.
        destruct o; simpl in Hout; fin.
      * by apply inv_add_sample.
      * rewrite Hs, size_add_fresh by done. lia.
      * fin.
    + apply IH in Hrun; simpl.
      * destruct Hrun as (? & ? & Hout). split_and!; fin.
        destruct o; simpl in Hout; fin.
      * done.
      * rewrite Hs. lia.
      * fin.
  - injection Hrun as <- <-. destruct Ho as [-> ?]. rewrite Hs. split_and!; fin.
    left. done.
  - injection Hrun as <- <-. destruct Ho. rewrite Hs. split_and!; fin.
  - lia.
Qed.
End SampleLoopFacts.

Lemma covers_spec L r i :
  covers L r = true → i < L → ∃ x, x ∈ r ∧ x mod L = i.
Proof.
  unfold covers. rewrite forallb_forall. intros H Hi.
  specialize (H i). rewrite existsb_exists in H.
  destruct H as (x & Hx & Heq).
  - apply in_seq. lia.
  - exists x. split; [by apply list_elem_of_In|]. by apply Nat.eqb_eq.
Qed.

Lemma covers_app L junk r : covers L r = true → covers L (junk ++ r) = true.
Proof.
  unfold covers. rewrite !forallb_forall. intros H i Hi.
  rewrite existsb_app, (H i Hi). apply orb_true_r.
Qed.

Lemma rounds_app L m junk rnd : rounds L m rnd → rounds L m (junk ++ rnd).
Proof.
  destruct 1 as [|m r rnd Hc Hr]; [constructor|].
  rewrite app_assoc. constructor; [by apply covers_app|done].
Qed.

Lemma rounds_le L m m' rnd : rounds L m rnd → m' ≤ m → rounds L m' rnd.
Proof.
  intros H. revert m'. induction H as [|m r rnd Hc Hr IH]; intros m' Hle.
  - replace m' with 0 by lia. constructor.
  - destruct m' as [|m']; [constructor|]. constructor; [done|]. apply IH. lia.
Qed.

Lemma fresh_index (checked : gset nat) L :
  size checked < L → ∃ i, i < L ∧ i ∉ checked.
Proof.
  intros Hsz.
  destruct (decide (Forall (fun i => i ∈ checked) (seq 0 L))) as [Hall|Hex].
  - exfalso. assert (set_seq 0 L ⊆ checked) as Hsub.
    { intros i Hi%elem_of_set_seq. rewrite Forall_forall in Hall.
      apply Hall, elem_of_seq. lia. }
    apply subseteq_size in Hsub. rewrite size_set_seq in Hsub. lia.
  - apply not_Forall_Exists in Hex; [|apply _].
    apply Exists_exists in Hex as (i & Hi%elem_of_seq & Hni).
    exists i. split; [lia|done].
Qed.

Lemma _rand_num_frames_finds checked stop r rnd :
  (∃ x, x ∈ r ∧ x mod stop ∉ checked) →
  ∃ rnum junk, _rand_num_frames checked stop (r ++ rnd) = Some (rnum, junk ++ rnd).
Proof.
  induction r as [|x r IH]; intros (y & Hy & Hfresh).
  { by apply elem_of_nil in Hy. }
  simpl. rewrite Nat.sub_0_r. case_decide as Hin.
  - apply IH. apply elem_of_cons in Hy as [->|Hy]; [done|]. by exists y.
  - by exists (x mod stop), r.
Qed.

Lemma _rand_num_frames_fed checked L m rnd :
  size checked < L → rounds L (S m) rnd →
  ∃ rnum rest, _rand_num_frames checked L rnd = Some (rnum, rest) ∧ rounds L m rest.
Proof.
  intros Hsz Hr. inversion Hr as [|m0 r rnd0 Hc Hr0]; subst.
  destruct (fresh_index checked L Hsz) as (i & Hi & Hni).
  destruct (covers_spec L r i Hc Hi) as (x & Hx & Hmod).
  destruct (_rand_num_frames_finds checked L r rnd0) as (rnum & junk & Heq).
  { exists x. by rewrite Hmod. }
  exists rnum, (junk ++ rnd0). split; [done|]. by apply rounds_app.
Qed.

Section Termination.
Variable clips : list VideoNode.
Variable nframes : nat.
Variable k : Z.
Variable p_type : list string.

Local Abbreviation slot := (slot_loop clips nframes p_type).
Local Abbreviation loop := (sample_loop clips nframes k p_type).

Lemma slot_loop_fed fuel st st1 o :
  slot fuel st = (st1, o) → fed nframes st → fed nframes st1 ∧ o ≠ Starved.
Proof.
  revert st. induction fuel as [|fuel IH]; intros st; simpl.
  { by intros [= <- <-] Hfed. }
  case_decide as Hsz; [|by intros [= <- <-] Hfed].
  intros Hrun (m & Hr & Hm).
  destruct m as [|m]; [lia|].
  destruct (_rand_num_frames_fed _ _ _ _ Hsz Hr) as (rnum & rest & Heq & Hrest).
  rewrite Heq in Hrun.
  pose proof (_rand_num_frames_spec _ _ _ _ _ Heq) as (Hfresh & _ & _).
  assert (fed nframes (log_tested (record_draw st rnum rest) rnum)) as Hfed1.
  { exists m. split; [done|]. simpl. rewrite size_add_fresh by done. lia. }
  destruct (picture_type_ok clips p_type rnum); [by injection Hrun as <- <-|].
  case_decide; [by injection Hrun as <- <-|].
  by apply IH in Hrun.
Qed.

Local Arguments slot_loop : simpl never.

Lemma sample_loop_fed fuel st st1 o :
  loop fuel st = (st1, o) → fed nframes st → o ≠ Starved.
Proof.
  revert st. induction fuel as [|fuel IH]; intros st; simpl.
  { by intros [= <- <-] Hfed. }
  case_decide as Hk; [|by intros [= <- <-] Hfed].
  destruct (slot _ _) as [st1' o'] eqn:Hslot.
  intros Hrun Hfed.
  apply slot_loop_fed in Hslot as [Hfed1 Hns]; [|done].
  destruct o' as [rnum|e| |]; [|by injection Hrun as <- <-|done|by injection Hrun as <- <-].
  case_decide; [by injection Hrun as <- <-|].
  apply IH in Hrun; [done|]. by case_decide.
Qed.
End Termination.

Lemma upper_ascii_idemp c : upper_ascii (upper_ascii c) = upper_ascii c.
Proof. destruct c as [[] [] [] [] [] [] [] []]; reflexivity. Qed.

Lemma upper_idemp s : upper (upper s) = upper s.
Proof. induction s as [|c s IH]; simpl; [done|]. by rewrite upper_ascii_idemp, IH. Qed.

Lemma picture_type_ok_spec clips p_type i :
  picture_type_ok clips p_type i = true ↔ ∀ c, c ∈ clips → _PictType c i ∈ p_type.
Proof.
  unfold picture_type_ok. rewrite forallb_forall. split.
  - intros H c Hc%list_elem_of_In. specialize (H c Hc).
    by apply bool_decide_eq_true in H.
  - intros H c Hc%list_elem_of_In. apply bool_decide_eq_true. by apply H.
Qed.

Lemma sel_inv_init clips nframes p_type rnd : sel_inv clips nframes p_type (sel_init rnd).
Proof. split_and!; simpl; try set_solver. apply NoDup_nil_2. Qed.

Lemma select_run_inv clips nframes k pts rnd st o :
  select_run clips nframes k pts rnd = (st, o) →
  sel_inv clips nframes (map upper pts) st
  ∧ (Z.of_nat (size (samples st)) ≤ Z.max 0 k)%Z
  ∧ match o with
    | Ok _ =>
        Z.of_nat (size (samples st)) = Z.max 0 k
        ∧ (Z.of_nat (_max_attempts st) ≤ 50 * Z.max 0 k)%Z
    | Raised e =>
        (Z.of_nat (size (samples st)) < k)%Z
        ∧ (e = ValueError ∧ nframes ≤ size (_rnum_checked st)
           ∨ e = RecursionError ∧ (50 * k < Z.of_nat (_max_attempts st))%Z)
    | Starved => rand st = [] ∧ size (_rnum_checked st) < nframes
    | OutOfFuel => False
    end.
Proof.
  unfold select_run. intros Hrun.
  apply sample_loop_inv in Hrun as (Hinv & Hsz & Ho).
  - split_and!; try done. destruct o; try done. simpl in Ho. lia.
  - apply sel_inv_init.
  - cbn [sel_init samples]. rewrite size_empty. lia.
  - simpl. lia.
Qed.

Lemma samples_bounded_by_matching clips nframes p_type st :
  sel_inv clips nframes p_type st →
  size (samples st) ≤ length (matching clips p_type nframes).
Proof.
  intros (_ & _ & Hsub & Hok & Hlt).
  assert (samples st ⊆ list_to_set (matching clips p_type nframes)) as Hin.
  { intros x Hx. apply elem_of_list_to_set. unfold matching.
    apply list_elem_of_filter. split; [by apply Hok|].
    apply elem_of_seq. split; [lia|]. simpl. apply Hlt, Hsub, Hx. }
  apply subseteq_size in Hin. rewrite size_list_to_set in Hin; [done|].
  unfold matching. apply NoDup_filter, NoDup_seq.
Qed.

(** C4. In one run of the constrained selection no frame number has its
    picture type read twice: the log of the candidates tested, which gets an
    entry each time the picture-type test reads the frames of a candidate,
    has no duplicates, and it holds exactly the members of the checked set,
    which lives across all sample slots and is never reset; so every
    candidate tested was recorded and every number recorded was tested once.
    This holds at whatever point the run stops, returning, raising or waiting
    for a draw. *)
Theorem checked_index_never_retested clips nframes k pts rnd :
  NoDup (tested (select_run clips nframes k pts rnd).1)
  ∧ ∀ x, x ∈ tested (select_run clips nframes k pts rnd).1
         ↔ x ∈ _rnum_checked (select_run clips nframes k pts rnd).1.
Proof.
  destruct (select_run clips nframes k pts rnd) as [st o] eqn:Hrun.
  apply select_run_inv in Hrun as ((Hnd & Heq & _) & _). by split.
Qed.

(** C10. When the constrained selection returns, for a count [k] that is
    not negative, the set returned has exactly [k] members: abandoned slots
    are followed by further slots, never by a shorter result. *)
Theorem constrained_selection_returns_k clips nframes k pts rnd s rest :
  (0 ≤ k)%Z →
  _select_samples_with_picture_types clips nframes k pts rnd = (Ok s, rest) →
  Z.of_nat (size s) = k.
Proof.
  intros Hk. unfold _select_samples_with_picture_types.
  destruct (select_run clips nframes k pts rnd) as [st o] eqn:Hrun.
  apply select_run_inv in Hrun as (_ & _ & Ho).
  destruct o; intros [= <- <-]. destruct Ho as [Ho _]. lia.
Qed.

(** C1. Every frame number in the set returned by the constrained
    selection has, in every clip, a picture type that belongs to the
    upper-cased filter; so it equals some entry of the filter up to the
    letter case of either side. *)
Theorem selected_frames_match_filter clips nframes k pts rnd s rest i c :
  _select_samples_with_picture_types clips nframes k pts rnd = (Ok s, rest) →
  i ∈ s → c ∈ clips →
  _PictType c i ∈ map upper pts ∧ ci_member (_PictType c i) pts.
Proof.
  unfold _select_samples_with_picture_types.
  destruct (select_run clips nframes k pts rnd) as [st o] eqn:Hrun.
  apply select_run_inv in Hrun as ((_ & _ & _ & Hok & _) & _).
  destruct o; intros [= <- <-] Hi Hc.
  apply Hok in Hi. rewrite picture_type_ok_spec in Hi. specialize (Hi c Hc).
  split; [done|].
  apply list_elem_of_fmap in Hi as (p & Hp & Hin).
  exists p. split; [done|]. by rewrite Hp, upper_idemp.
Qed.

(** C2. On a random source that keeps offering every frame number
    ([nframes] rounds are enough), the constrained selection always ends, and
    in one of three ways only. It returns a set of exactly [k] members with
    the global counter within [50 * k], which needs [k] matching frames to
    exist; or, with fewer than [k] samples accepted, it raises [ValueError]
    once every frame number has been tried, or [RecursionError] once the
    global counter is above [50 * k]. A raise carries no set. *)
Theorem exhausted_search_raises clips nframes k pts rnd st o :
  rounds nframes nframes rnd →
  select_run clips nframes k pts rnd = (st, o) →
  (o = Ok tt ∧ _select_samples_with_picture_types clips nframes k pts rnd
               = (Ok (samples st), rand st)
   ∧ Z.of_nat (size (samples st)) = Z.max 0 k
   ∧ (Z.of_nat (_max_attempts st) ≤ 50 * Z.max 0 k)%Z
   ∧ (k ≤ Z.of_nat (length (matching clips (map upper pts) nframes)))%Z
   ∨ (Z.of_nat (size (samples st)) < k)%Z
     ∧ (o = Raised ValueError
        ∧ _select_samples_with_picture_types clips nframes k pts rnd
          = (Raised ValueError, rand st)
        ∧ nframes ≤ size (_rnum_checked st)
        ∨ o = Raised RecursionError
          ∧ _select_samples_with_picture_types clips nframes k pts rnd
            = (Raised RecursionError, rand st)
          ∧ (50 * k < Z.of_nat (_max_attempts st))%Z)).
Proof.
  intros Hr Hrun.
  pose proof (select_run_inv _ _ _ _ _ _ _ Hrun) as (Hinv & Hsz & Ho).
  assert (o ≠ Starved) as Hns.
  { unfold select_run in Hrun. eapply sample_loop_fed; [exact Hrun|].
    exists nframes. split; [done|]. simpl. lia. }
  unfold _select_samples_with_picture_types. rewrite Hrun.
  destruct o as [[]|e| |]; try done.
  - left. destruct Ho as [Hk Hb]. split_and!; try done.
    apply samples_bounded_by_matching in Hinv. lia.
  - right. destruct Ho as [Hlt [[-> ?]|[-> ?]]]; split; try done; [left|right]; done.
Qed.

(** * Facts about strings and decimal numerals *)

Lemma app_cons x (a b : string) : String x a +:+ b = String x (a +:+ b).
Proof. reflexivity. Qed.

Lemma app_empty_l (a : string) : EmptyString +:+ a = a.
Proof. reflexivity. Qed.

Lemma app_assoc_s (a b c : string) : (a +:+ b) +:+ c = a +:+ (b +:+ c).
Proof. induction a as [|x a IH]; [done|]. by rewrite !app_cons, IH. Qed.

Lemma app_empty_r (a : string) : a +:+ EmptyString = a.
Proof. induction a as [|x a IH]; [done|]. by rewrite app_cons, IH. Qed.

Lemma length_app_s (a b : string) :
  String.length (a +:+ b) = String.length a + String.length b.
Proof. induction a as [|x a IH]; [done|]. rewrite app_cons. simpl. by rewrite IH. Qed.

Lemma length_string_rep c n : String.length (string_rep c n) = n.
Proof. induction n as [|n IH]; simpl; [done|]. f_equal. exact IH. Qed.

Lemma pretty_N_char_digit (n : nat) :
  n < 10 → pretty_N_char (N.of_nat n) = digit_char n.
Proof.
  intros Hn. do 10 (destruct n as [|n]; [reflexivity|]). lia.
Qed.

Lemma pretty_N_go_app x s : pretty_N_go x s = pretty_N_go x EmptyString +:+ s.
Proof.
  revert s. induction (N.lt_wf_0 x) as [x _ IH]; intros s.
  assert (x = 0 ∨ 0 < x)%N as [->|Hx] by lia.
  { by rewrite !pretty_N_go_0. }
  assert (x `div` 10 < x)%N as Hlt by (by apply N.div_lt).
  rewrite (pretty_N_go_step x s), (pretty_N_go_step x EmptyString) by done.
  set (c := pretty_N_char (x `mod` 10)).
  rewrite (IH _ Hlt (String c s)), (IH _ Hlt (String c EmptyString)).
  by rewrite app_assoc_s.
Qed.

Lemma pretty_N_unfold (x : N) :
  pretty x = if decide (x < 10)%N then String (pretty_N_char x) EmptyString
             else pretty (x `div` 10)%N
                  +:+ String (pretty_N_char (x `mod` 10)%N) EmptyString.
Proof.
  assert (∀ y : N, pretty y = if decide (y = 0%N) then "0"
                              else pretty_N_go y EmptyString) as Hdef by done.
  rewrite (Hdef x). destruct (decide (x = 0%N)) as [->|Hx0]; [done|].
  rewrite pretty_N_go_step by lia.
  destruct (decide (x < 10)%N) as [Hsmall|Hbig].
  - rewrite N.div_small, pretty_N_go_0, N.mod_small by done. done.
  - rewrite pretty_N_go_app, (Hdef (x `div` 10)%N).
    rewrite decide_False; [done|].
    assert (1 ≤ x `div` 10)%N; [|lia].
    apply N.div_le_lower_bound; lia.
Qed.

(** The numeral of [n], digit by digit. *)
Lemma str_unfold n :
  str n = if decide (n < 10) then String (digit_char n) EmptyString
          else str (n / 10) +:+ String (digit_char (n mod 10)) EmptyString.
Proof.
  assert (∀ m : nat, str m = pretty (N.of_nat m)) as Hdef by done.
  rewrite !Hdef, pretty_N_unfold.
  destruct (decide (n < 10)) as [Hsmall|Hbig].
  - rewrite decide_True by lia. by rewrite pretty_N_char_digit.
  - rewrite decide_False by lia.
    replace (N.of_nat n `div` 10)%N with (N.of_nat (n / 10))
      by (by rewrite Nat2N.inj_div).
    replace (N.of_nat n `mod` 10)%N with (N.of_nat (n mod 10))
      by (by rewrite Nat2N.inj_mod).
    rewrite pretty_N_char_digit; [done|].
    apply Nat.mod_upper_bound. lia.
Qed.

Lemma str_length_unfold n :
  String.length (str n) = if decide (n < 10) then 1 else S (String.length (str (n / 10))).
Proof.
  rewrite (str_unfold n). case_decide; [done|].
  rewrite length_app_s. simpl. lia.
Qed.

Lemma str_length_pos n : 0 < String.length (str n).
Proof. rewrite str_length_unfold. case_decide; lia. Qed.

Lemma str_length_mono f g :
  f ≤ g → String.length (str f) ≤ String.length (str g).
Proof.
  revert f. induction (lt_wf g) as [g _ IH]; intros f Hle.
  rewrite (str_length_unfold f), (str_length_unfold g).
  repeat case_decide; try lia.
  apply le_n_S, IH.
  - apply Nat.div_lt; lia.
  - apply Nat.Div0.div_le_mono. done.
Qed.

(** ** Lexicographic order of padded numerals *)

Lemma ascii_compare_refl c : Ascii.compare c c = Eq.
Proof. unfold Ascii.compare. apply N.compare_refl. Qed.

Lemma ascii_compare_lt a b :
  nat_of_ascii a < nat_of_ascii b → Ascii.compare a b = Lt.
Proof.
  unfold Ascii.compare, nat_of_ascii. intros H.
  apply N.compare_lt_iff. lia.
Qed.

Lemma nat_of_digit_char n : n < 10 → nat_of_ascii (digit_char n) = 48 + n.
Proof. intros. unfold digit_char. apply nat_ascii_embedding. lia. Qed.

Lemma compare_cons a b s t :
  String.compare (String a s) (String b t)
  = match Ascii.compare a b with Eq => String.compare s t | r => r end.
Proof. reflexivity. Qed.

Lemma compare_refl s : String.compare s s = Eq.
Proof.
  induction s as [|c s IH]; [done|]. by rewrite compare_cons, ascii_compare_refl.
Qed.

Lemma compare_app_l p s t : String.compare (p +:+ s) (p +:+ t) = String.compare s t.
Proof.
  induction p as [|c p IH]; [done|].
  by rewrite !app_cons, compare_cons, ascii_compare_refl.
Qed.

Lemma compare_app_lt a b s t :
  String.length a = String.length b →
  String.compare a b = Lt → String.compare (a +:+ s) (b +:+ t) = Lt.
Proof.
  revert b. induction a as [|x a IH]; intros [|y b] Hlen; try done.
  rewrite !app_cons, !compare_cons.
  destruct (Ascii.compare x y); [|done..].
  apply IH. simpl in Hlen. lia.
Qed.

Lemma compare_app_eq a b s t :
  String.length a = String.length b →
  String.compare a b = Eq → String.compare (a +:+ s) (b +:+ t) = String.compare s t.
Proof.
  revert b. induction a as [|x a IH]; intros [|y b] Hlen; try done.
  rewrite !app_cons, !compare_cons.
  destruct (Ascii.compare x y); [|done..].
  apply IH. simpl in Hlen. lia.
Qed.


Lemma compare_lt_ne a b : String.compare a b = Lt → a ≠ b.
Proof. intros H ->. by rewrite compare_refl in H. Qed.

Lemma str_compare_lt f g :
  f < g → String.length (str f) = String.length (str g) →
  String.compare (str f) (str g) = Lt.
Proof.
  revert f. induction (lt_wf g) as [g _ IH]; intros f Hlt.
  rewrite (str_length_unfold f), (str_length_unfold g), (str_unfold f), (str_unfold g).
  pose proof (str_length_pos (f / 10)). pose proof (str_length_pos (g / 10)).
  repeat case_decide; intros Hlen; try lia.
  - rewrite compare_cons, ascii_compare_lt; [done|].
    rewrite !nat_of_digit_char by lia. lia.
  - assert (f / 10 ≤ g / 10) as Hq by (by apply Nat.Div0.div_le_mono; lia).
    pose proof (Nat.div_mod_eq f 10). pose proof (Nat.div_mod_eq g 10).
    pose proof (Nat.mod_upper_bound f 10). pose proof (Nat.mod_upper_bound g 10).
    destruct (decide (f / 10 = g / 10)) as [Heq|Hne].
    + rewrite Heq, compare_app_l, compare_cons, ascii_compare_lt; [done|].
      rewrite !nat_of_digit_char by lia. lia.
    + apply compare_app_lt; [lia|]. apply IH; [apply Nat.div_lt; lia|lia|lia].
Qed.

(** A positive numeral starts with a digit from 1 to 9. *)
Lemma str_head g :
  0 < g → ∃ d t, str g = String (digit_char d) t ∧ 1 ≤ d ≤ 9.
Proof.
  induction (lt_wf g) as [g _ IH]; intros Hpos.
  rewrite (str_unfold g). case_decide as Hsmall.
  - exists g, EmptyString. split; [done|lia].
  - destruct (IH (g / 10)) as (d & t & -> & Hd).
    + apply Nat.div_lt; lia.
    + assert (1 ≤ g / 10); [|lia]. apply Nat.div_le_lower_bound; lia.
    + exists d, (t +:+ String (digit_char (g mod 10)) EmptyString). by split.
Qed.

Lemma string_rep_add c m n : string_rep c (m + n) = string_rep c m +:+ string_rep c n.
Proof. induction m as [|m IH]; [done|]. simpl. by rewrite app_cons, IH. Qed.

Lemma rjust_length c w s :
  String.length s ≤ w → String.length (rjust c w s) = w.
Proof. intros. unfold rjust. rewrite length_app_s, length_string_rep. lia. Qed.

Lemma rjust_compare_lt c w f g :
  (c = " " ∨ c = "0")%char →
  f < g → String.length (str g) ≤ w →
  String.compare (rjust c w (str f)) (rjust c w (str g)) = Lt.
Proof.
  intros Hc Hlt Hw.
  pose proof (str_length_mono f g ltac:(lia)) as Hmono.
  unfold rjust.
  destruct (decide (String.length (str f) = String.length (str g))) as [Heq|Hne].
  - rewrite Heq, compare_app_l. by apply str_compare_lt.
  - replace (w - String.length (str f))
      with ((w - String.length (str g))
            + S (String.length (str g) - String.length (str f) - 1)) by lia.
    rewrite string_rep_add, app_assoc_s, compare_app_l.
    destruct (str_head g) as (d & t & -> & Hd); [lia|].
    simpl string_rep. rewrite app_cons, compare_cons.
    rewrite ascii_compare_lt; [done|].
    rewrite nat_of_digit_char by lia.
    destruct Hc as [-> | ->];
      [change (nat_of_ascii " ") with 32|change (nat_of_ascii "0") with 48]; lia.
Qed.

(** ** Digits, keys and the imwri pattern *)

Lemma all_chars_app P a b : all_chars P (a +:+ b) = all_chars P a && all_chars P b.
Proof.
  induction a as [|c a IH]; [done|]. rewrite app_cons. simpl.
  by rewrite IH, andb_assoc.
Qed.

Lemma is_digit_digit_char n : n < 10 → is_digit (digit_char n) = true.
Proof. intros Hn. do 10 (destruct n as [|n]; [reflexivity|]). lia. Qed.

Lemma str_all_digits n : all_chars is_digit (str n) = true.
Proof.
  induction (lt_wf n) as [n _ IH]. rewrite (str_unfold n). case_decide.
  - cbn [all_chars]. by rewrite is_digit_digit_char.
  - rewrite all_chars_app, IH by (apply Nat.div_lt; lia). cbn [all_chars].
    rewrite is_digit_digit_char; [done|]. apply Nat.mod_upper_bound. lia.
Qed.


Lemma read_width_digits acc a r :
  all_chars is_digit a = true →
  read_width acc (a +:+ r) = read_width (digits_value acc a) r.
Proof.
  revert acc. induction a as [|c a IH]; intros acc Ha; [done|].
  simpl in Ha. apply andb_true_iff in Ha as [Hc Ha].
  rewrite app_cons. simpl. by rewrite Hc, IH.
Qed.

Lemma digits_value_app acc a b :
  digits_value acc (a +:+ b) = digits_value (digits_value acc a) b.
Proof.
  revert acc. induction a as [|c a IH]; intros acc; [done|].
  rewrite app_cons. simpl. by rewrite IH.
Qed.

Lemma digits_value_str n : digits_value 0 (str n) = n.
Proof.
  induction (lt_wf n) as [n _ IH]. rewrite (str_unfold n). case_decide.
  - cbn [digits_value]. rewrite nat_of_digit_char by done. lia.
  - rewrite digits_value_app, IH by (apply Nat.div_lt; lia). cbn [digits_value].
    rewrite nat_of_digit_char by (apply Nat.mod_upper_bound; lia).
    pose proof (Nat.div_mod_eq n 10). lia.
Qed.

Lemma format_int_prefix name r n :
  no_percent name = true → format_int (name +:+ r) n = name +:+ format_int r n.
Proof.
  induction name as [|c name IH]; intros Hn; [done|].
  simpl in Hn. apply andb_true_iff in Hn as [Hc Hn].
  rewrite !app_cons. simpl.
  apply negb_true_iff in Hc. rewrite Hc. by rewrite IH.
Qed.

Lemma str_small n : n < 10 → str n = String (digit_char n) EmptyString.
Proof. intros. rewrite str_unfold. by rewrite decide_True. Qed.

Lemma str_length_small n : String.length (str n) = 1 → n < 10.
Proof.
  rewrite str_length_unfold. case_decide; [done|].
  pose proof (str_length_pos (n / 10)). lia.
Qed.

Lemma str_length_big n : 10 ≤ n → 2 ≤ String.length (str n).
Proof.
  intros. rewrite str_length_unfold. rewrite decide_False by lia.
  pose proof (str_length_pos (n / 10)). lia.
Qed.

Lemma zfill_width w :
  zfill (str w) 2 = if decide (w < 10) then String "0" (String (digit_char w) EmptyString)
                    else str w.
Proof.
  unfold zfill, rjust. case_decide as Hw.
  - by rewrite (str_small w).
  - pose proof (str_length_big w ltac:(lia)).
    by replace (2 - String.length (str w)) with 0 by lia.
Qed.

(** What the imwri plugin names the image of frame [f]. *)
Lemma imwri_file name max_num f :
  no_percent name = true →
  format_int (imwri_pattern name max_num) f = frame_file IMWRI name max_num f.
Proof.
  intros Hn. unfold imwri_pattern, frame_file, pad_char.
  rewrite format_int_prefix by done. f_equal.
  set (w := String.length (str max_num)).
  rewrite zfill_width.
  change ("_%" +:+ ?x) with (String "_" (String "%" x)).
  change ("_" +:+ ?x) with (String "_" x).
  cbn [format_int]. change (Ascii.eqb "_" "%") with false. cbv iota. f_equal.
  change (Ascii.eqb "%" "%") with true. cbv iota.
  case_decide as Hw.
  - rewrite !app_cons, app_empty_l. change (Ascii.eqb "0" "0") with true. cbv iota.
    cbn [read_width]. rewrite is_digit_digit_char by done.
    rewrite nat_of_digit_char by done.
    change (read_width ?a "d.png") with (a, "d.png").
    cbv iota beta. change (Ascii.eqb "d" "d") with true. cbv iota.
    replace (10 * 0 + (48 + w - 48)) with w by lia. done.
  - destruct (str_head w) as (d & t & Hstr & Hd); [lia|].
    assert (Ascii.eqb (digit_char d) "0" = false) as Hnz.
    { apply Ascii.eqb_neq. intros Heq.
      apply (f_equal nat_of_ascii) in Heq.
      rewrite nat_of_digit_char in Heq by lia.
      change (nat_of_ascii "0") with 48 in Heq. lia. }
    assert (∀ r, match str w +:+ r with
                 | String c0 r0 => if Ascii.eqb c0 "0" then ("0"%char, r0)
                                   else (" "%char, str w +:+ r)
                 | EmptyString => (" "%char, str w +:+ r)
                 end = (" "%char, str w +:+ r)) as Hflag.
    { intros r. rewrite Hstr, app_cons. by rewrite Hnz. }
    rewrite Hflag.
    rewrite read_width_digits by apply str_all_digits.
    rewrite digits_value_str.
    change (read_width ?a "d.png") with (a, "d.png").
    cbv iota beta. change (Ascii.eqb "d" "d") with true. cbv iota. done.
Qed.

Lemma frame_file_zero writer name max_num f :
  writer ≠ IMWRI → frame_file writer name max_num f = image_name name max_num f.
Proof. by destruct writer. Qed.

Lemma pad_char_cases writer max_num :
  (pad_char writer max_num = " " ∨ pad_char writer max_num = "0")%char.
Proof. unfold pad_char. destruct writer; try case_decide; auto. Qed.

(** File names follow the frame numbers. *)
Lemma frame_file_lt writer name max_num f g :
  f < g → g ≤ max_num →
  String.compare (frame_file writer name max_num f) (frame_file writer name max_num g) = Lt.
Proof.
  intros Hlt Hle. unfold frame_file.
  rewrite compare_app_l. change ("_" +:+ ?x) with (String "_" x).
  rewrite compare_cons, ascii_compare_refl.
  pose proof (str_length_mono g max_num Hle).
  pose proof (str_length_mono f max_num ltac:(lia)).
  apply compare_app_lt.
  - by rewrite !rjust_length.
  - apply rjust_compare_lt; [apply pad_char_cases|done..].
Qed.

Lemma diff_name_lt max_num f g :
  f < g → g ≤ max_num →
  String.compare (diff_name max_num f) (diff_name max_num g) = Lt.
Proof.
  intros Hlt Hle. unfold diff_name, zfill.
  rewrite compare_app_l.
  pose proof (str_length_mono g max_num Hle).
  pose proof (str_length_mono f max_num ltac:(lia)).
  apply compare_app_lt.
  - by rewrite !rjust_length.
  - apply rjust_compare_lt; auto.
Qed.





(** * Facts about [make_comps] *)

(** ** Running the blocks *)

Lemma run_bind {A B : Type} (m : M A) (f : A → M B) w :
  run (m ≫= f) w
  = match run m w with
    | (w', Ok a) => run (f a) w'
    | (w', Raised e) => (w', Raised e)
    | (w', Starved) => (w', Starved)
    | (w', OutOfFuel) => (w', OutOfFuel)
    end.
Proof. reflexivity. Qed.

Lemma run_ret {A : Type} (a : A) w : run (mret a) w = (w, Ok a).
Proof. reflexivity. Qed.

Lemma run_bind_Ok {A B : Type} (m : M A) (f : A → M B) w w' b :
  run (m ≫= f) w = (w', Ok b) →
  ∃ a w1, run m w = (w1, Ok a) ∧ run (f a) w1 = (w', Ok b).
Proof.
  rewrite run_bind. destruct (run m w) as [w1 [a|e| |]]; try done.
  intros H. by exists a, w1.
Qed.

Lemma run_bind_eq {A B : Type} (m : M A) (f : A → M B) w w1 a :
  run m w = (w1, Ok a) → run (m ≫= f) w = run (f a) w1.
Proof. intros H. by rewrite run_bind, H. Qed.

(** ** Unconstrained sampling *)

Lemma lookup_delete_NoDup (pool : list nat) j x :
  NoDup pool → pool !! j = Some x → (x ∉ delete j pool) ∧ NoDup (delete j pool).
Proof.
  intros Hnd Hj. split.
  - rewrite delete_take_drop.
    rewrite <- (take_drop_middle pool j x Hj) in Hnd.
    apply NoDup_app in Hnd as (_ & Hdisj & Hnd2).
    apply NoDup_cons in Hnd2 as [Hnot _].
    intros [Hin|Hin]%elem_of_app; [|done].
    apply (Hdisj x Hin). left.
  - exact (sublist_NoDup _ _ Hnd (sublist_delete pool j)).
Qed.

Lemma sample_pool_inv pool k rnd xs rest :
  NoDup pool → sample_pool pool k rnd = (Ok xs, rest) →
  length xs = k ∧ NoDup xs ∧ (∀ x, x ∈ xs → x ∈ pool).
Proof.
  revert pool rnd xs rest. induction k as [|k IH]; intros pool rnd xs rest Hnd; simpl.
  { intros [= <- <-]. split_and!; [done|constructor|]. by intros x ?%elem_of_nil. }
  destruct rnd as [|r rnd]; [done|].
  destruct (pool !! (r mod length pool)) as [x|] eqn:Hx; [|done].
  destruct (sample_pool _ k rnd) as [[ys| | |] rest'] eqn:Hrec; try done.
  intros [= <- <-].
  destruct (lookup_delete_NoDup pool _ x Hnd Hx) as [Hnot Hnd'].
  apply IH in Hrec as (Hlen & Hnd2 & Hsub); [|done].
  split_and!.
  - simpl. by rewrite Hlen.
  - constructor; [|done]. intros Hin. apply Hnot, Hsub, Hin.
  - intros y [->|Hy]%elem_of_cons.
    + by eapply list_elem_of_lookup_2.
    + apply Hsub in Hy.
      eapply elem_of_sublist; [exact Hy|apply sublist_delete].
Qed.

Lemma sample_pool_returns pool k rnd :
  k ≤ length pool → k ≤ length rnd →
  ∃ xs, sample_pool pool k rnd = (Ok xs, drop k rnd).
Proof.
  revert pool rnd. induction k as [|k IH]; intros pool rnd Hp Hr; simpl.
  { by exists []. }
  destruct rnd as [|r rnd]; [simpl in Hr; lia|].
  assert (r mod length pool < length pool) as Hj by (apply Nat.mod_upper_bound; lia).
  destruct (lookup_lt_is_Some_2 pool _ Hj) as [x Hx]. rewrite Hx.
  destruct (IH (delete (r mod length pool) pool) rnd) as [xs Hxs].
  - rewrite length_delete by eauto. lia.
  - simpl in Hr. lia.
  - rewrite Hxs. by exists (x :: xs).
Qed.

Lemma lens_singleton (clips : list (string * VideoNode)) L :
  clips ≠ [] → Forall (fun c => num_frames c.2 = L) clips →
  (list_to_set (map (fun c => num_frames c.2) clips) : gset nat) = {[L]}.
Proof.
  intros Hne Hall. apply set_eq. intros x.
  rewrite elem_of_list_to_set, elem_of_singleton, list_elem_of_fmap. split.
  - intros (c & -> & Hc). rewrite Forall_forall in Hall. by apply Hall.
  - intros ->. destruct clips as [|c clips]; [done|].
    exists c. split; [|left]. symmetry. by apply Forall_cons in Hall as [? _].
Qed.

Lemma set_pop_singleton L : set_pop {[L]} = L.
Proof. unfold set_pop. by rewrite elements_singleton. Qed.

Lemma make_samples_unfiltered clips lens num pts w :
  truthy pts = false →
  run (make_samples clips lens num pts) w
  = match random_sample (seq 0 (set_pop lens)) num (random w) with
    | (Ok l, r) =>
        ({| fs := fs w; random := r; magick_found := magick_found w;
            slowpics_reply := slowpics_reply w; events := events w |},
         Ok (list_to_set l))
    | (Raised e, r) =>
        ({| fs := fs w; random := r; magick_found := magick_found w;
            slowpics_reply := slowpics_reply w; events := events w |}, Raised e)
    | (Starved, r) =>
        ({| fs := fs w; random := r; magick_found := magick_found w;
            slowpics_reply := slowpics_reply w; events := events w |}, Starved)
    | (OutOfFuel, r) =>
        ({| fs := fs w; random := r; magick_found := magick_found w;
            slowpics_reply := slowpics_reply w; events := events w |}, OutOfFuel)
    end.
Proof.
  intros Hpt. unfold make_samples. rewrite Hpt, run_bind. unfold with_random.
  cbn [run]. by destruct (random_sample _ _ _) as [[l|e| |] r].
Qed.

(** C5. For clips of the common length [L], no picture-type filter and a
    count between 0 and [L], the sampling block returns exactly [num]
    distinct frame numbers, all below [L], and touches neither the disk nor
    the log. The random module is asked for [num] integers. *)
Theorem unfiltered_selection_exact clips L num pts w :
  clips ≠ [] → Forall (fun c => num_frames c.2 = L) clips →
  truthy pts = false →
  (0 ≤ num ≤ Z.of_nat L)%Z → Z.to_nat num ≤ length (random w) →
  ∃ s w',
    run (make_samples clips (list_to_set (map (fun c => num_frames c.2) clips))
           num pts) w = (w', Ok s)
    ∧ Z.of_nat (size s) = num
    ∧ (∀ i, i ∈ s → i < L)
    ∧ fs w' = fs w ∧ events w' = events w.
Proof.
  intros Hne Hall Hpt Hnum Hrnd.
  rewrite make_samples_unfiltered by done.
  rewrite (lens_singleton clips L) by done. rewrite set_pop_singleton.
  unfold random_sample. rewrite length_seq, decide_True by done.
  destruct (sample_pool_returns (seq 0 L) (Z.to_nat num) (random w)) as [xs Hxs].
  { rewrite length_seq. lia. }
  { done. }
  rewrite Hxs.
  apply sample_pool_inv in Hxs as (Hlen & Hnd & Hsub); [|apply NoDup_seq].
  eexists _, _. split; [reflexivity|]. split_and!; try done.
  - rewrite size_list_to_set by done. lia.
  - intros i Hi%elem_of_list_to_set. apply Hsub, elem_of_seq in Hi. lia.
Qed.

(** C7. When two clips differ in length, [make_comps] raises [ValueError]
    and leaves the world as it found it: no random integer is drawn, no
    directory is made and no image is written. *)
Theorem unequal_lengths_rejected clips path num frames pts bt writer mc sp cn pub
    a b w :
  a ∈ clips → b ∈ clips → num_frames a.2 ≠ num_frames b.2 →
  run (make_comps clips path num frames pts bt writer mc sp cn pub) w
  = (w, Raised ValueError).
Proof.
  intros Ha Hb Hne. unfold make_comps, plan_frames.
  rewrite !run_bind.
  set (lens := list_to_set _ : gset nat).
  assert (size lens ≠ 1) as Hsz.
  { intros Hone. apply size_1_elem_of in Hone as [x Hx].
    assert (num_frames a.2 ∈ lens) as Ha'.
    { apply elem_of_list_to_set, list_elem_of_fmap. by exists a. }
    assert (num_frames b.2 ∈ lens) as Hb'.
    { apply elem_of_list_to_set, list_elem_of_fmap. by exists b. }
    apply Hne. rewrite Hx in Ha', Hb'. set_solver. }
  by rewrite decide_True.
Qed.

(** ** The frame list *)





Lemma extract_files_names writer name bt max_num fl :
  (writer = IMWRI → no_percent name = true) →
  extract_files writer name bt max_num fl
  = map (fun f => (frame_file writer name max_num f, PngFrame name f bt)) fl.
Proof.
  intros Hname.
  assert (∀ l : list nat,
    zip_with (fun p f => (p, PngFrame name f bt)) (map (image_name name max_num) l) l
    = map (fun f => (image_name name max_num f, PngFrame name f bt)) l) as Hzip.
  { induction l as [|x l IH]; [done|]. simpl. by rewrite IH. }
  destruct writer; unfold extract_files.
  - by rewrite Hzip.
  - apply map_ext. intros f. by rewrite imwri_file by auto.
  - by rewrite Hzip.
Qed.


(** ** Directories and what [glob] finds in them *)

Arguments str : simpl never.

#[global] Instance by_name_trans : Transitive by_name.
Proof. intros a b c. unfold by_name. apply transitivity. Qed.

#[global] Instance by_name_total : Total by_name.
Proof. intros a b. unfold by_name. apply total, _. Qed.





(** ** What the blocks do to the file system *)








Lemma glob_images_ext w1 w2 dir :
  fs w1 !! dir = fs w2 !! dir → glob_images w1 dir = glob_images w2 dir.
Proof. intros H. unfold glob_images, sorted_glob_png. by rewrite H. Qed.

Lemma run_SubProcessAsync pd max_num jobs w d :
  fs w !! pd = Some d →
  ∃ w', run (SubProcessAsync pd max_num jobs) w = (w', Ok tt)
        ∧ fs w' = <[pd := put_files d (map (job_file max_num) jobs)]> (fs w).
Proof.
  revert w d. induction jobs as [|[[i1 i2] f] jobs IH]; intros w d Hd.
  { exists w. cbn [SubProcessAsync map]. rewrite run_ret. split; [done|].
    by rewrite insert_id. }
  cbn [SubProcessAsync]. rewrite run_bind. cbn [run emit].
  rewrite run_bind. unfold write_file at 1.
  rewrite run_bind. cbn [run get_world]. rewrite run_bind.
  cbn [run set_fs emit fs events]. rewrite Hd. cbn [default].
  match goal with |- context [run (SubProcessAsync pd max_num jobs) ?w1] =>
    destruct (IH w1 (<[diff_name max_num f
                        := PngDiff (img_bytes i1) (img_bytes i2)]> d))
      as (w' & Hrun & Hfs) end.
  { cbn [fs]. by rewrite lookup_insert_eq. }
  exists w'. split; [done|]. cbn [fs] in Hfs.
  by rewrite Hfs, insert_insert_eq.
Qed.


(** ** The images found for the upload *)

Lemma sorted_by_frame {A} (nm : nat → string) (c : nat → A) max_num (fl : list nat) :
  (∀ f g, f < g → g ≤ max_num → String.compare (nm f) (nm g) = Lt) →
  StronglySorted lt fl → (∀ f, f ∈ fl → f ≤ max_num) →
  StronglySorted (fun a b : string * A => String.compare a.1 b.1 = Lt)
    (map (fun f => (nm f, c f)) fl).
Proof.
  intros Hnm Hs Hle. induction Hs as [|f fl Hs IH Hall]; [constructor|].
  cbn [map]. constructor.
  - apply IH. intros g Hg. apply Hle. by right.
  - rewrite Forall_forall in Hall. apply Forall_forall.
    intros a (g & -> & Hg)%list_elem_of_fmap. cbn [fst].
    apply Hnm; [by apply Hall|]. apply Hle. by right.
Qed.




(** ** The keys of the upload form *)













(** ** A dict filled by a list of assignments *)





(** ** The upload form *)











Section Form.
Variable srcs : list (string * (nat → image)).
Variable fl : list nat.
Variable cn : string.
Variable pub : bool.

Local Abbreviation fields :=
  (build_fields srcs.*1 (map (fun s => map s.2 fl) srcs) fl cn pub).





End Form.





(** ** The whole of [make_comps] *)



(** C8, as the code has it. With [magick_compare] set and more than two
    clips, [make_comps] raises [ValueError] in the state the extraction of
    all clips left: after the images were written, before the probe of
    [magick], the diffs directory and any compare command. *)
Theorem more_than_two_clips_rejected_after_extraction
    clips path num frames pts bt writer sp cn pub w w1 w2 max_num fl :
  2 < length clips →
  run (plan_frames clips num frames pts) w = (w1, Ok (max_num, fl)) →
  run (extract_all clips path bt writer max_num fl) w1 = (w2, Ok tt) →
  run (make_comps clips path num frames pts bt writer true sp cn pub) w
  = (w2, Raised ValueError).
Proof.
  intros Hlen Hplan Hext. unfold make_comps.
  rewrite (run_bind_eq _ _ _ _ _ Hplan). cbn [fst snd].
  rewrite (run_bind_eq _ _ _ _ _ Hext).
  rewrite run_bind. unfold make_diffs. rewrite run_bind.
  by rewrite decide_True.
Qed.


(** * The code on concrete inputs *)

(** C3. One clip of 53 frames whose frames 50 to 52 are I frames, two
    samples asked for, candidates drawn in the order 0, 1, 2, ...: frame 50
    matches the filter and is the fifty-first candidate of the first slot;
    it is checked, not added to the samples, and no warning is logged. *)
Theorem fifty_first_match_is_dropped :
  picture_type_ok [late_I_clip 53] (map upper ["I"]) 50 = true
  ∧ select_run [late_I_clip 53] 53 2 ["I"] (seq 0 53)
    = ({| samples := {[51; 52]};
          _rnum_checked := list_to_set (seq 0 53);
          _attempts := 0;
          _max_attempts := 50;
          rand := [];
          tested := seq 0 53;
          warned := [] |}, Ok tt).
Proof. split; vm_compute; reflexivity. Qed.

(** C8. Three clips with [magick_compare]: [ValueError] is raised once
    every clip has its directory and its image. *)
Lemma three_clips_rejected_only_after_extraction :
  let r := run (make_comps three_clips "comps" 1 None None false OPENCV
                  true false "col" true) (world_init [7]) in
  r.2 = Raised ValueError
  ∧ events r.1
    = [EMkdir "comps";
       EMkdir "comps/A"; EWrite "comps/A" "A_7.png" (PngFrame "A" 7 false);
       EMkdir "comps/B"; EWrite "comps/B" "B_7.png" (PngFrame "B" 7 false);
       EMkdir "comps/C"; EWrite "comps/C" "C_7.png" (PngFrame "C" 7 false)].
Proof. split; vm_compute; reflexivity. Qed.

(** The tag itself is compared as it is: a lower-case tag is not accepted
    for an upper-case entry. *)
Lemma lowercase_tag_is_not_accepted :
  picture_type_ok [{| num_frames := 1; _PictType := fun _ => "i" |}]
    (map upper ["I"]) 0 = false.
Proof. reflexivity. Qed.

(** * Instances of the theorems *)

Lemma selected_frames_match_filter_witness :
  _select_samples_with_picture_types [gop_clip] 20 2 ["i"] (seq 0 20)
  = (Ok {[0; 5]}, drop 6 (seq 0 20))
  ∧ _PictType gop_clip 5 ∈ map upper ["i"]
  ∧ ci_member (_PictType gop_clip 5) ["i"].
Proof.
  assert (_select_samples_with_picture_types [gop_clip] 20 2 ["i"] (seq 0 20)
          = (Ok {[0; 5]}, drop 6 (seq 0 20))) as Hrun
    by (vm_compute; reflexivity).
  split; [exact Hrun|].
  apply (selected_frames_match_filter [gop_clip] 20 2 ["i"] (seq 0 20)
           {[0; 5]} (drop 6 (seq 0 20)) 5 gop_clip Hrun).
  - apply elem_of_union. right. apply elem_of_singleton. reflexivity.
  - apply list_elem_of_here.
Defined.

Lemma exhausted_search_raises_witness :
  rounds 3 3 ([0; 1; 2] ++ [0; 1; 2] ++ [0; 1; 2] ++ [])
  ∧ select_run [p_only_clip] 3 1 ["I"] [0; 1; 2; 0; 1; 2; 0; 1; 2]
    = ({| samples := ∅; _rnum_checked := {[0; 1; 2]}; _attempts := 3;
          _max_attempts := 3; rand := [0; 1; 2; 0; 1; 2]; tested := [0; 1; 2];
          warned := [] |}, Raised ValueError)
  ∧ _select_samples_with_picture_types [p_only_clip] 3 1 ["I"]
      [0; 1; 2; 0; 1; 2; 0; 1; 2]
    = (Raised ValueError, [0; 1; 2; 0; 1; 2]).
Proof.
  assert (rounds 3 3 ([0; 1; 2] ++ [0; 1; 2] ++ [0; 1; 2] ++ [])) as Hr
    by (repeat constructor).
  assert (select_run [p_only_clip] 3 1 ["I"] [0; 1; 2; 0; 1; 2; 0; 1; 2]
          = ({| samples := ∅; _rnum_checked := {[0; 1; 2]}; _attempts := 3;
                _max_attempts := 3; rand := [0; 1; 2; 0; 1; 2]; tested := [0; 1; 2];
                warned := [] |}, Raised ValueError)) as Hrun
    by (vm_compute; reflexivity).
  split; [exact Hr|]. split; [exact Hrun|].
  destruct (exhausted_search_raises [p_only_clip] 3 1 ["I"]
              [0; 1; 2; 0; 1; 2; 0; 1; 2] _ _ Hr Hrun)
    as [(Hok & _)|(_ & [(_ & Hsel & _)|(Hrec & _)])].
  - discriminate Hok.
  - exact Hsel.
  - discriminate Hrec.
Defined.

Lemma unfiltered_selection_exact_witness :
  ∃ s w',
    run (make_samples two_clips
           (list_to_set (map (fun c => num_frames c.2) two_clips)) 3 None)
      (world_init [5; 3; 100]) = (w', Ok s)
    ∧ Z.of_nat (size s) = 3%Z
    ∧ (∀ i, i ∈ s → i < 20)
    ∧ fs w' = fs (world_init [5; 3; 100])
    ∧ events w' = events (world_init [5; 3; 100]).
Proof.
  apply (unfiltered_selection_exact two_clips 20 3 None (world_init [5; 3; 100])).
  - discriminate.
  - repeat constructor.
  - reflexivity.
  - lia.
  - vm_compute. lia.
Defined.


Lemma unequal_lengths_rejected_witness :
  run (make_comps [("A", gop_clip); ("B", late_I_clip 53)] "comps" 3 None None
         false OPENCV false false "col" true) (world_init [5; 3; 100])
  = (world_init [5; 3; 100], Raised ValueError).
Proof.
  apply (unequal_lengths_rejected [("A", gop_clip); ("B", late_I_clip 53)]
           "comps" 3 None None false OPENCV false false "col" true
           ("A", gop_clip) ("B", late_I_clip 53)).
  - apply list_elem_of_here.
  - apply list_elem_of_further, list_elem_of_here.
  - vm_compute. lia.
Defined.

Lemma more_than_two_clips_rejected_after_extraction_witness :
  run (make_comps three_clips "comps" 1 None None false OPENCV true false "col" true)
    (world_init [7])
  = ((run (extract_all three_clips "comps" false OPENCV 7 [7]) (world_init [])).1,
     Raised ValueError).
Proof.
  apply (more_than_two_clips_rejected_after_extraction three_clips "comps" 1 None
           None false OPENCV false "col" true (world_init [7]) (world_init [])
           _ 7 [7]).
  - vm_compute. lia.
  - vm_compute. reflexivity.
  - vm_compute. reflexivity.
Defined.

Lemma constrained_selection_returns_k_witness :
  (0 ≤ 2)%Z
  ∧ _select_samples_with_picture_types [gop_clip] 20 2 ["i"] (seq 0 20)
    = (Ok {[0; 5]}, drop 6 (seq 0 20))
  ∧ Z.of_nat (size ({[0; 5]} : gset nat)) = 2%Z.
Proof.
  assert (_select_samples_with_picture_types [gop_clip] 20 2 ["i"] (seq 0 20)
          = (Ok {[0; 5]}, drop 6 (seq 0 20))) as Hrun
    by (vm_compute; reflexivity).
  split; [lia|]. split; [exact Hrun|].
  apply (constrained_selection_returns_k [gop_clip] 20 2 ["i"] (seq 0 20)
           {[0; 5]} (drop 6 (seq 0 20))); [lia|exact Hrun].
Defined.


(** * Further facts about the sampler *)

(** X1. [_rand_num_frames] returns the first number drawn that is not in the
    checked set, with the random source as that draw left it: the draws
    before it all fell into the checked set. It has no answer exactly when
    every draw the source holds falls into the checked set. *)
Theorem rand_num_frames_first_unchecked checked stop rnd :
  0 < stop →
  (∀ rnum rest,
     _rand_num_frames checked stop rnd = Some (rnum, rest) ↔
     ∃ skipped r, rnd = skipped ++ r :: rest
       ∧ Forall (fun x => x mod stop ∈ checked) skipped
       ∧ rnum = r mod stop ∧ (rnum ∉ checked) ∧ rnum < stop)
  ∧ (_rand_num_frames checked stop rnd = None ↔
     Forall (fun x => x mod stop ∈ checked) rnd).
Proof.
  intros Hstop. induction rnd as [|x rnd [IHs IHn]].
  { split.
    - intros rnum rest. split; [done|].
      intros (skipped & r & Heq & _). by destruct skipped.
    - done. }
  simpl. rewrite Nat.sub_0_r. case_decide as Hin.
  - split.
    + intros rnum rest. rewrite IHs. split.
      * intros (skipped & r & -> & Hall & Hr). exists (x :: skipped), r.
        split; [done|]. split; [by constructor|done].
      * intros (skipped & r & Heq & Hall & -> & Hfresh & Hlt).
        destruct skipped as [|y skipped]; simplify_eq/=; [done|].
        apply Forall_cons in Hall as [_ Hall]. by exists skipped, r.
    + rewrite IHn. split; [by constructor|]. by intros [_ ?]%Forall_cons.
  - split.
    + intros rnum rest. split.
      * intros [= <- <-]. exists [], x. split_and!; try done.
        by apply Nat.mod_upper_bound, Nat.neq_0_lt_0.
      * intros (skipped & r & Heq & Hall & -> & Hfresh & Hlt).
        destruct skipped as [|y skipped]; simplify_eq/=; [done|].
        by apply Forall_cons in Hall as [? _].
    + split; [done|]. by intros [? _]%Forall_cons.
Qed.

Lemma rand_num_frames_first_unchecked_witness :
  0 < 3
  ∧ _rand_num_frames {[0; 2]} 3 [3; 5; 7; 9] = Some (1, [9])
  ∧ (_rand_num_frames {[0; 1; 2]} 3 [3; 5; 7] = None
     ↔ Forall (fun x => x mod 3 ∈ ({[0; 1; 2]} : gset nat)) [3; 5; 7]).
Proof.
  assert (0 < 3) as Hstop by lia.
  split; [exact Hstop|]. split.
  - apply (proj1 (rand_num_frames_first_unchecked {[0; 2]} 3 [3; 5; 7; 9] Hstop) 1 [9]).
    exists [3; 5], 7. split; [reflexivity|]. split.
    + repeat constructor; vm_compute; reflexivity.
    + split; [reflexivity|]. split; [vm_compute; discriminate|lia].
  - exact (proj2 (rand_num_frames_first_unchecked {[0; 1; 2]} 3 [3; 5; 7] Hstop)).
Defined.

(** X2. Every frame number the constrained selection returns is a frame of
    the clips: it is below [num_frames]. *)
Theorem selected_frames_in_range clips nframes k pts rnd s rest i :
  _select_samples_with_picture_types clips nframes k pts rnd = (Ok s, rest) →
  i ∈ s → i < nframes.
Proof.
  unfold _select_samples_with_picture_types.
  destruct (select_run clips nframes k pts rnd) as [st o] eqn:Hrun.
  apply select_run_inv in Hrun as ((_ & _ & Hsub & _ & Hlt) & _).
  destruct o; intros [= <- <-] Hi. by apply Hlt, Hsub.
Qed.

Lemma selected_frames_in_range_witness :
  _select_samples_with_picture_types [gop_clip] 20 2 ["i"] [3; 25; 7; 10]
  = (Ok {[5; 10]}, []) ∧ 10 < 20.
Proof.
  split; [by vm_compute|].
  apply (selected_frames_in_range [gop_clip] 20 2 ["i"] [3; 25; 7; 10] {[5; 10]} [] 10).
  - by vm_compute.
  - apply elem_of_union. right. apply elem_of_singleton. reflexivity.
Defined.

Section Warnings.
Variable clips : list VideoNode.
Variable nframes : nat.
Variable k : Z.
Variable p_type : list string.

Lemma slot_loop_warned fuel st st1 o :
  slot_loop clips nframes p_type fuel st = (st1, o) →
  51 * length (warned st) + _attempts st ≤ _max_attempts st →
  51 * length (warned st1) ≤ _max_attempts st1.
Proof.
  revert st. induction fuel as [|fuel IH]; intros st; simpl.
  { intros [= <- <-]. lia. }
  case_decide as Hsz; [|intros [= <- <-]; lia].
  destruct (_rand_num_frames _ _ _) as [[rnum r]|]; [|intros [= <- <-]; simpl; lia].
  destruct (picture_type_ok clips p_type rnum); [intros [= <- <-]; simpl; lia|].
  case_decide as Hcap.
  - intros [= <- <-] Hle. simpl in *. rewrite length_app. simpl.
    unfold _MAX_ATTEMPTS_PER_PICTURE_TYPE in Hcap. lia.
  - intros Hrun Hle. apply IH in Hrun; [done|]. simpl. lia.
Qed.

Local Arguments slot_loop : simpl never.

Lemma sample_loop_warned fuel st st1 o :
  sample_loop clips nframes k p_type fuel st = (st1, o) →
  51 * length (warned st) ≤ _max_attempts st →
  51 * length (warned st1) ≤ _max_attempts st1.
Proof.
  revert st. induction fuel as [|fuel IH]; intros st; simpl.
  { by intros [= <- <-]. }
  case_decide as Hk; [|by intros [= <- <-]].
  destruct (slot_loop _ _ _ _ _) as [st1' o'] eqn:Hslot.
  intros Hrun Hle.
  apply slot_loop_warned in Hslot; [|simpl; lia].
  destruct o' as [rnum|e| |]; try by injection Hrun as <- <-.
  case_decide; [by injection Hrun as <- <-|].
  apply IH in Hrun; [done|]. by case_decide.
Qed.
End Warnings.

(** X3. Every warning of the constrained selection stands for 51 failed
    candidates: at whatever point the run stops, 51 times the number of
    warnings is within the global counter. A run that returns has kept the
    counter within [50 * k], so it logged fewer warnings than samples asked
    for, and none at all for [k = 1]. *)
Theorem warning_costs_51_failures clips nframes k pts rnd st o :
  select_run clips nframes k pts rnd = (st, o) →
  51 * length (warned st) ≤ _max_attempts st
  ∧ (o = Ok tt → (51 * Z.of_nat (length (warned st)) ≤ 50 * Z.max 0 k)%Z
                 ∧ (k = 1%Z → warned st = [])).
Proof.
  intros Hrun.
  pose proof (select_run_inv _ _ _ _ _ _ _ Hrun) as (_ & _ & Ho).
  unfold select_run in Hrun. apply sample_loop_warned in Hrun; [|simpl; lia].
  split; [done|]. intros ->. destruct Ho as [_ Hmax]. split; [lia|].
  intros ->. destruct (warned st); [done|]. simpl in *. lia.
Qed.

Lemma warning_costs_51_failures_witness :
  ∃ st,
    select_run [{| num_frames := 60;
                   _PictType := fun i => if decide (51 ≤ i) then "I" else "P" |}]
      60 2 ["I"] (seq 0 60) = (st, Ok tt)
    ∧ samples st = {[51; 52]}
    ∧ warned st = [0]
    ∧ _max_attempts st = 51
    ∧ 51 * length (warned st) ≤ _max_attempts st.
Proof.
  set (r := select_run [{| num_frames := 60;
                 _PictType := fun i => if decide (51 ≤ i) then "I" else "P" |}]
              60 2 ["I"] (seq 0 60)).
  assert (r = (r.1, Ok tt)) as Hrun by (vm_compute; reflexivity).
  exists r.1. split; [exact Hrun|].
  split; [vm_compute; reflexivity|]. split; [vm_compute; reflexivity|].
  split; [vm_compute; reflexivity|].
  exact (proj1 (warning_costs_51_failures _ 60 2 ["I"] (seq 0 60) r.1 (Ok tt) Hrun)).
Defined.

Section FewFailures.
Variable clips : list VideoNode.
Variable nframes : nat.
Variable k : Z.
Variable p_type : list string.
Hypothesis Hfew : length (failing clips p_type nframes) < _MAX_ATTEMPTS_PER_PICTURE_TYPE.

Local Abbreviation inv := (sel_inv clips nframes p_type).
Local Abbreviation good := (tidy clips nframes p_type).

Lemma tidy_bound st : good st → _max_attempts st ≤ length (failing clips p_type nframes).
Proof.
  intros ((_ & _ & Hsub & _ & Hlt) & Hall & _ & Hcount).
  assert (_rnum_checked st ∖ samples st
          ⊆ list_to_set (failing clips p_type nframes)) as Hin.
  { intros x [Hx Hns]%elem_of_difference. apply elem_of_list_to_set. unfold failing.
    apply list_elem_of_filter. split.
    - destruct (picture_type_ok clips p_type x) eqn:Hpt; [|done].
      exfalso. by apply Hns, Hall.
    - apply elem_of_seq. split; [lia|]. simpl. by apply Hlt. }
  apply subseteq_size in Hin.
  rewrite size_difference, size_list_to_set in Hin; [lia| |done].
  unfold failing. apply NoDup_filter, NoDup_seq.
Qed.

Lemma tidy_failed st rnum r :
  good st → rnum ∉ _rnum_checked st → rnum < nframes →
  picture_type_ok clips p_type rnum = false →
  good (count_attempt (log_tested (record_draw st rnum r) rnum)).
Proof.
  intros (Hinv & Hall & Hatt & Hcount) Hfresh Hr Hpt. split_and!.
  - by apply (inv_record_draw clips nframes p_type st rnum r).
  - simpl. intros x [->%elem_of_singleton|Hx]%elem_of_union Hok; [congruence|].
    by apply Hall.
  - simpl. lia.
  - simpl. rewrite size_add_fresh by done. lia.
Qed.

Lemma slot_loop_tidy fuel st st1 o :
  slot_loop clips nframes p_type fuel st = (st1, o) → good st →
  match o with
  | Ok r =>
      picture_type_ok clips p_type r = true
      ∧ _attempts st1 < _MAX_ATTEMPTS_PER_PICTURE_TYPE
      ∧ good (add_sample st1 r)
      ∧ samples st1 = samples st ∧ (r ∉ samples st)
  | Raised _ => good st1 ∧ samples st1 = samples st ∧ nframes ≤ size (_rnum_checked st1)
  | _ => True
  end.
Proof.
  revert st. induction fuel as [|fuel IH]; intros st; simpl.
  { by intros [= <- <-]. }
  case_decide as Hsz; [|intros [= <- <-] Hgood; split_and!; fin].
  destruct (_rand_num_frames _ _ _) as [[rnum r]|] eqn:Hdraw; [|by intros [= <- <-]].
  apply _rand_num_frames_spec in Hdraw as (Hfresh & Hlen & Hrange).
  assert (rnum < nframes) as Hr by (apply Hrange; lia).
  destruct (picture_type_ok clips p_type rnum) eqn:Hpt.
  { clear IH. intros [= <- <-] Hgood.
    pose proof (tidy_bound st Hgood) as Hb.
    destruct Hgood as (Hinv & Hall & Hatt & Hcount).
    assert (rnum ∉ samples st) as Hns.
    { intros ?. apply Hfresh. by apply Hinv. }
    split_and!; try done; [simpl; lia|]. split_and!.
    - apply inv_add_sample; [|simpl; set_solver|done].
      by apply (inv_record_draw clips nframes p_type st rnum r).
    - simpl. intros x [->%elem_of_singleton|Hx]%elem_of_union Hok; [set_solver|].
      apply elem_of_union. right. by apply Hall.
    - simpl. lia.
    - simpl. rewrite !size_add_fresh by done. lia. }
  intros Hrun Hgood.
  pose proof (tidy_failed st rnum r Hgood Hfresh Hr Hpt) as Hgood2.
  pose proof (tidy_bound _ Hgood2) as Hb.
  destruct Hgood2 as (Hinv2 & Hall2 & Hatt2 & Hcount2).
  rewrite decide_False in Hrun by (simpl in Hb, Hatt2; lia).
  apply IH in Hrun; [|by split_and!].
  destruct o; try done.
Qed.

Local Arguments slot_loop : simpl never.

Lemma sample_loop_tidy fuel st st1 o :
  sample_loop clips nframes k p_type fuel st = (st1, o) → good st →
  (k ≤ Z.of_nat (length (matching clips p_type nframes)))%Z →
  ∀ e, o ≠ Raised e.
Proof.
  intros Hrun Hgood Hk. revert st Hrun Hgood.
  induction fuel as [|fuel IH]; intros st; simpl.
  { by intros [= <- <-]. }
  case_decide as Hlt; [|by intros [= <- <-]].
  destruct (slot_loop _ _ _ _ _) as [st1' o'] eqn:Hslot.
  intros Hrun Hgood.
  apply slot_loop_tidy in Hslot; [|by destruct Hgood as (? & ? & ? & ?); split_and!; fin].
  destruct o' as [rnum|e| |].
  - destruct Hslot as (Hpt & Hatt & Hgood1 & Hs & Hns).
    pose proof (tidy_bound _ Hgood1) as Hb. simpl in Hb.
    rewrite decide_False in Hrun by (unfold _MAX_ATTEMPTS_PER_PICTURE_TYPE in *; lia).
    rewrite decide_True in Hrun by done.
    eapply IH; [exact Hrun|done].
  - exfalso. destruct Hslot as (((_ & _ & Hsub & _ & Hrange) & Hall & _) & Hs & Hfull).
    assert (_rnum_checked st1' = set_seq 0 nframes) as Heq.
    { apply set_subseteq_size_eq.
      - intros x Hx. apply elem_of_set_seq. split; [lia|]. simpl. by apply Hrange.
      - by rewrite size_set_seq. }
    assert (list_to_set (matching clips p_type nframes) ⊆ samples st1') as Hin.
    { intros x [Hok Hx%elem_of_seq]%elem_of_list_to_set%list_elem_of_filter.
      apply Hall; [|done]. rewrite Heq. apply elem_of_set_seq. lia. }
    apply subseteq_size in Hin. rewrite size_list_to_set, Hs in Hin; [simpl in Hin; lia|].
    unfold matching. apply NoDup_filter, NoDup_seq.
  - by injection Hrun as <- <-.
  - by injection Hrun as <- <-.
Qed.
End FewFailures.

(** X4. When fewer than 50 frames of the clips fail the picture-type test
    and at least [k] frames pass it, the constrained selection succeeds on
    every random source that keeps offering every frame number: it returns
    [k] frames that pass the test, no slot is given up and no match is
    dropped. If exactly [k] frames pass the test, they are the result. *)
Theorem few_failures_selection_succeeds clips nframes k pts rnd :
  rounds nframes nframes rnd →
  length (failing clips (map upper pts) nframes) < 50 →
  (k ≤ Z.of_nat (length (matching clips (map upper pts) nframes)))%Z →
  ∃ s rest,
    _select_samples_with_picture_types clips nframes k pts rnd = (Ok s, rest)
    ∧ Z.of_nat (size s) = Z.max 0 k
    ∧ s ⊆ list_to_set (matching clips (map upper pts) nframes)
    ∧ (k = Z.of_nat (length (matching clips (map upper pts) nframes)) →
       s = list_to_set (matching clips (map upper pts) nframes)).
Proof.
  intros Hr Hfew Hk.
  destruct (select_run clips nframes k pts rnd) as [st o] eqn:Hrun.
  pose proof (select_run_inv _ _ _ _ _ _ _ Hrun) as (Hinv & Hsz & Ho).
  assert (o ≠ Starved) as Hns.
  { unfold select_run in Hrun. eapply sample_loop_fed; [exact Hrun|].
    exists nframes. split; [done|]. simpl. lia. }
  assert (∀ e, o ≠ Raised e) as Hnr.
  { unfold select_run in Hrun.
    apply (sample_loop_tidy clips nframes k (map upper pts) Hfew _ _ _ _ Hrun); [|done].
    split_and!; [apply sel_inv_init|set_solver|done|simpl; lia]. }
  unfold _select_samples_with_picture_types. rewrite Hrun.
  destruct o as [[]|e| |]; [|by destruct (Hnr e)|done|done].
  destruct Ho as [Hsize _].
  assert (samples st ⊆ list_to_set (matching clips (map upper pts) nframes)) as Hin.
  { destruct Hinv as (_ & _ & Hsub & Hok & Hlt).
    intros x Hx. apply elem_of_list_to_set. unfold matching.
    apply list_elem_of_filter. split; [by apply Hok|].
    apply elem_of_seq. split; [lia|]. simpl. apply Hlt, Hsub, Hx. }
  exists (samples st), (rand st). split_and!; try done.
  intros ->. apply set_subseteq_size_eq; [done|].
  rewrite size_list_to_set; [lia|].
  unfold matching. apply NoDup_filter, NoDup_seq.
Qed.

Lemma few_failures_selection_succeeds_witness :
  ∃ s rest,
    _select_samples_with_picture_types
      [{| num_frames := 4;
          _PictType := fun i => if decide (i mod 2 = 0) then "I" else "P" |}]
      4 2 ["i"] ([1; 2; 3; 0] ++ [1; 2; 3; 0] ++ [1; 2; 3; 0] ++ [1; 2; 3; 0] ++ [])
    = (Ok s, rest)
    ∧ Z.of_nat (size s) = Z.max 0 2
    ∧ s ⊆ list_to_set (matching
            [{| num_frames := 4;
                _PictType := fun i => if decide (i mod 2 = 0) then "I" else "P" |}]
            (map upper ["i"]) 4)
    ∧ (2%Z = Z.of_nat (length (matching
            [{| num_frames := 4;
                _PictType := fun i => if decide (i mod 2 = 0) then "I" else "P" |}]
            (map upper ["i"]) 4)) →
       s = list_to_set (matching
            [{| num_frames := 4;
                _PictType := fun i => if decide (i mod 2 = 0) then "I" else "P" |}]
            (map upper ["i"]) 4)).
Proof.
  apply (few_failures_selection_succeeds
           [{| num_frames := 4;
               _PictType := fun i => if decide (i mod 2 = 0) then "I" else "P" |}]
           4 2 ["i"]
           ([1; 2; 3; 0] ++ [1; 2; 3; 0] ++ [1; 2; 3; 0] ++ [1; 2; 3; 0] ++ [])).
  - repeat constructor.
  - vm_compute. lia.
  - vm_compute. discriminate.
Defined.

(** * What [make_comps] leaves alone *)

Section Respects.
Context (R : relation world) `{!PreOrder R}.

Lemma respects_ret {A} (a : A) : respects R (mret a).
Proof. intros w. rewrite run_ret. reflexivity. Qed.

Lemma respects_raise {A} e : respects R (raise e : M A).
Proof. intros w. reflexivity. Qed.

Lemma respects_get_world : respects R get_world.
Proof. intros w. reflexivity. Qed.

Lemma respects_bind {A B} (m : M A) (f : A → M B) :
  respects R m → (∀ a, respects R (f a)) → respects R (m ≫= f).
Proof.
  intros Hm Hf w. rewrite run_bind. specialize (Hm w).
  destruct (run m w) as [w1 [a|e| |]]; try done.
  cbn [fst] in Hm. etrans; [exact Hm|]. apply Hf.
Qed.

Lemma respects_try_except {A} (m : M A) h :
  respects R m → (∀ e h', h e = Some h' → respects R h') →
  respects R (try_except m h).
Proof.
  intros Hm Hh w. unfold try_except. cbn [run]. specialize (Hm w).
  destruct (run m w) as [w1 [a|e| |]]; try done.
  destruct (h e) as [h'|] eqn:He; [|done].
  cbn [fst] in Hm. etrans; [exact Hm|]. by apply (Hh e).
Qed.

Lemma respects_for_each {A} (body : A → M unit) l :
  (∀ x, respects R (body x)) → respects R (for_each body l).
Proof.
  intros Hb. induction l as [|x l IH]; cbn [for_each].
  - apply respects_ret.
  - apply respects_bind; [apply Hb|]. by intros [].
Qed.

Variable allowed : event → Prop.
Hypothesis Hemit : ∀ ev, allowed ev → respects R (emit ev).
Hypothesis Hset : ∀ f, respects R (set_fs f).
Hypothesis Hrand :
  ∀ A (f : list nat → outcome A * list nat), respects R (with_random f).

Lemma respects_mkdir p : allowed (EMkdir p) → respects R (mkdir p).
Proof.
  intros Hp. unfold mkdir. apply respects_bind; [apply respects_get_world|].
  intros w. destruct (fs w !! p); [apply respects_raise|].
  apply respects_bind; [apply Hset|]. intros []. by apply Hemit.
Qed.

Lemma respects_write_file dir file c :
  allowed (EWrite dir file c) → respects R (write_file dir file c).
Proof.
  intros Hp. unfold write_file. apply respects_bind; [apply respects_get_world|].
  intros w. apply respects_bind; [apply Hset|]. intros []. by apply Hemit.
Qed.

Lemma respects_write_files dir files :
  (∀ file c, allowed (EWrite dir file c)) → respects R (write_files dir files).
Proof.
  intros Hp. induction files as [|[file c] files IH]; cbn [write_files].
  - apply respects_ret.
  - apply respects_bind; [by apply respects_write_file|]. by intros [].
Qed.

Lemma respects_plan_frames clips num frames pts :
  (∀ msg, allowed (EInfo msg)) → respects R (plan_frames clips num frames pts).
Proof.
  intros Hinfo. unfold plan_frames. apply respects_bind.
  { case_decide; [apply respects_raise|apply respects_ret]. }
  intros []. apply respects_bind.
  - unfold make_samples. destruct (truthy pts).
    + apply respects_bind; [apply Hemit, Hinfo|]. intros []. apply Hrand.
    + apply respects_bind; [apply Hrand|]. intros l. apply respects_ret.
  - intros s. unfold add_frames.
    case_decide; [apply respects_raise|apply respects_ret].
Qed.

Lemma respects_extract_all clips path bt writer max_num fl :
  (∀ p, allowed (EMkdir p)) → (∀ d file c, allowed (EWrite d file c)) →
  (writer = FFMPEG → ∀ c, allowed (ERun c)) →
  respects R (extract_all clips path bt writer max_num fl).
Proof.
  intros Hmk Hwr Hff. unfold extract_all. apply respects_bind.
  { apply respects_try_except; [by apply respects_mkdir|].
    intros [] h'; try done. intros [= <-]. apply respects_raise. }
  intros []. apply respects_for_each. intros [name clip]. unfold extract_clip.
  apply respects_bind.
  { apply respects_try_except; [by apply respects_mkdir|].
    intros [] h'; try done. intros [= <-]. apply respects_raise. }
  intros []. destruct writer; try by apply respects_write_files.
  unfold run_ffmpeg. apply respects_bind; [by apply Hemit, Hff|].
  intros []. by apply respects_write_files.
Qed.

Lemma respects_SubProcessAsync pd max_num jobs :
  (∀ c, allowed (ERun c)) → (∀ d file c, allowed (EWrite d file c)) →
  respects R (SubProcessAsync pd max_num jobs).
Proof.
  intros Hrun Hwr. induction jobs as [|[[i1 i2] f] jobs IH]; cbn [SubProcessAsync].
  - apply respects_ret.
  - apply respects_bind; [by apply Hemit|]. intros [].
    apply respects_bind; [by apply respects_write_file|]. by intros [].
Qed.

Lemma respects_make_diffs clips path max_num fl :
  (∀ msg, allowed (EInfo msg)) → (∀ c, allowed (ERun c)) →
  (∀ p, allowed (EMkdir p)) → (∀ d file c, allowed (EWrite d file c)) →
  respects R (make_diffs clips path max_num fl).
Proof.
  intros Hinfo Hrun Hmk Hwr. unfold make_diffs. apply respects_bind.
  { case_decide; [apply respects_raise|apply respects_ret]. }
  intros []. apply respects_bind.
  { apply respects_try_except.
    - apply respects_bind; [apply respects_get_world|]. intros w.
      apply respects_bind; [|intros []; by apply respects_mkdir].
      destruct (magick_found w); [by apply Hemit|apply respects_raise].
    - intros [] h'; try done; intros [= <-]; apply respects_raise. }
  intros []. apply respects_bind; [apply respects_get_world|]. intros w.
  destruct (map _ _) as [|a [|b [|c l]]]; try apply respects_raise.
  apply respects_bind; [apply Hemit, Hinfo|]. intros [].
  by apply respects_SubProcessAsync.
Qed.

Lemma respects_upload_slowpics clips path fl mc cn pub :
  (∀ ev, allowed ev) → respects R (upload_slowpics clips path fl mc cn pub).
Proof.
  intros Hall. unfold upload_slowpics.
  apply respects_bind; [apply respects_get_world|]. intros w.
  repeat (apply respects_bind;
            [first [by apply Hemit|by apply respects_write_file]|]; intros []).
  by apply Hemit.
Qed.
End Respects.

#[global] Instance logs_preorder P : PreOrder (logs P).
Proof.
  split.
  - intros w. exists []. by rewrite app_nil_r.
  - intros w1 w2 w3 (e1 & H1 & F1) (e2 & H2 & F2). exists (e1 ++ e2). split.
    + by rewrite H2, H1, app_assoc.
    + by apply Forall_app.
Qed.

#[global] Instance same_tools_preorder : PreOrder same_tools.
Proof.
  split; [done|]. intros w1 w2 w3 [H1 H1'] [H2 H2']. split; congruence.
Qed.

#[global] Instance same_disk_preorder : PreOrder same_disk.
Proof. split; [done|]. unfold same_disk. intros w1 w2 w3 H1 H2. congruence. Qed.

#[global] Instance keeps_dirs_preorder : PreOrder keeps_dirs.
Proof.
  split; [done|]. intros w1 w2 w3 H1 H2 p Hp.
  rewrite <- (H1 p Hp). apply H2. by rewrite (H1 p Hp).
Qed.

Lemma logs_emit (P : event → Prop) ev : P ev → respects (logs P) (emit ev).
Proof. intros Hev w. exists [ev]. split; [done|]. by constructor. Qed.

Lemma logs_set_fs P f : respects (logs P) (set_fs f).
Proof. intros w. exists []. by rewrite app_nil_r. Qed.

Lemma logs_with_random P A (f : list nat → outcome A * list nat) :
  respects (logs P) (with_random f).
Proof.
  intros w. unfold with_random. cbn [run]. destruct (f (random w)).
  exists []. by rewrite app_nil_r.
Qed.

Lemma same_tools_emit ev : respects same_tools (emit ev).
Proof. done. Qed.

Lemma same_tools_set_fs f : respects same_tools (set_fs f).
Proof. done. Qed.

Lemma same_tools_with_random A (f : list nat → outcome A * list nat) :
  respects same_tools (with_random f).
Proof. intros w. unfold with_random. cbn [run]. by destruct (f (random w)). Qed.

Lemma same_disk_emit ev : respects same_disk (emit ev).
Proof. done. Qed.

Lemma same_disk_with_random A (f : list nat → outcome A * list nat) :
  respects same_disk (with_random f).
Proof. intros w. unfold with_random. cbn [run]. by destruct (f (random w)). Qed.

(** The sampling stage touches neither the disk nor the tools. *)
Lemma plan_frames_frame clips num frames pts w :
  fs (run (plan_frames clips num frames pts) w).1 = fs w
  ∧ same_tools w (run (plan_frames clips num frames pts) w).1.
Proof.
  split.
  - apply (respects_plan_frames same_disk (fun _ => True)); auto using same_disk_emit,
      same_disk_with_random.
  - apply (respects_plan_frames same_tools (fun _ => True)); auto using same_tools_emit,
      same_tools_with_random.
Qed.

Lemma extract_all_tools clips path bt writer max_num fl w :
  same_tools w (run (extract_all clips path bt writer max_num fl) w).1.
Proof.
  apply (respects_extract_all same_tools (fun _ => True));
    auto using same_tools_emit, same_tools_set_fs.
Qed.

(** X5. Unless [slowpics] is set, [make_comps] sends nothing to the
    service: whatever the arguments and however the call ends, none of the
    events it adds to the log is a request. *)
Theorem no_request_without_slowpics
    clips path num frames pts bt writer mc cn pub w :
  ∃ evs,
    events (run (make_comps clips path num frames pts bt writer mc false cn pub) w).1
    = events w ++ evs
    ∧ Forall (fun ev => is_network ev = false) evs.
Proof.
  set (P := fun ev => is_network ev = false).
  assert (∀ ev, P ev → respects (logs P) (emit ev)) as Hemit
    by (intros ev; apply logs_emit).
  pose proof (logs_set_fs P) as Hset. pose proof (logs_with_random P) as Hrand.
  apply (respects_bind (logs P)).
  { by apply (respects_plan_frames (logs P) P). }
  intros mf. apply (respects_bind (logs P)).
  { by apply (respects_extract_all (logs P) P). }
  intros []. apply (respects_bind (logs P)); [|intros []; apply (respects_ret (logs P))].
  destruct mc; [|apply (respects_ret (logs P))].
  by apply (respects_make_diffs (logs P) P).
Qed.

(** X6. With a writer other than ffmpeg, which is an external command
    itself, and unless [magick_compare] is set, [make_comps] starts no
    external command: whatever the other arguments and however the call
    ends, none of the events it adds to the log is a command run. *)
Theorem no_command_without_magick_compare
    clips path num frames pts bt writer sp cn pub w :
  writer ≠ FFMPEG →
  ∃ evs,
    events (run (make_comps clips path num frames pts bt writer false sp cn pub) w).1
    = events w ++ evs
    ∧ Forall (fun ev => is_process ev = false) evs.
Proof.
  intros Hwriter.
  set (P := fun ev => is_process ev = false).
  assert (∀ ev, P ev → respects (logs P) (emit ev)) as Hemit
    by (intros ev; apply logs_emit).
  pose proof (logs_set_fs P) as Hset. pose proof (logs_with_random P) as Hrand.
  apply (respects_bind (logs P)).
  { by apply (respects_plan_frames (logs P) P). }
  intros mf. apply (respects_bind (logs P)).
  { by apply (respects_extract_all (logs P) P). }
  intros []. apply (respects_bind (logs P)); [apply (respects_ret (logs P))|]. intros [].
  destruct sp; [|apply (respects_ret (logs P))].
  unfold upload_slowpics.
  apply (respects_bind (logs P)); [apply (respects_get_world (logs P))|]. intros w0.
  repeat (apply (respects_bind (logs P));
            [first [by apply Hemit|by apply (respects_write_file (logs P) P)]|];
          intros []).
  by apply Hemit.
Qed.

Lemma no_command_without_magick_compare_witness :
  ∃ evs,
    events (run (make_comps two_clips "comps" 1 None None false OPENCV false true
                   "col" true) (world_init [7])).1
    = events (world_init [7]) ++ evs
    ∧ Forall (fun ev => is_process ev = false) evs.
Proof.
  apply (no_command_without_magick_compare two_clips "comps" 1 None None false
           OPENCV true "col" true (world_init [7])).
  discriminate.
Defined.

(** * Directories: what is kept and what is refused *)

Lemma keeps_dirs_fresh w w' p d :
  fs w !! p = None → fs w' = <[p := d]> (fs w) → keeps_dirs w w'.
Proof.
  intros Hnone Hfs q [x Hq]. rewrite Hfs, lookup_insert_ne; [done|].
  intros ->. congruence.
Qed.

Lemma keeps_dirs_same w w' : fs w' = fs w → keeps_dirs w w'.
Proof. intros Hfs q _. by rewrite Hfs. Qed.




(** The probe of [magick] followed by the making of the diffs directory. *)
Lemma run_probe_mkdir pd w wm o :
  run (try_except
         (w ← get_world;
          (if magick_found w then emit (ERun "magick compare")
           else raise FileNotFoundError) ;;
          mkdir pd)
         (fun e => match e with
                   | FileNotFoundError => Some (Status_fail FileNotFoundError)
                   | FileExistsError => Some (Status_fail FileExistsError)
                   | _ => None
                   end)) w = (wm, o) →
  o = Ok tt ∧ magick_found w = true ∧ fs w !! pd = None ∧ fs wm = <[pd := ∅]> (fs w)
  ∨ o = Raised FileNotFoundError ∧ magick_found w = false ∧ wm = w
  ∨ o = Raised FileExistsError ∧ magick_found w = true ∧ is_Some (fs w !! pd)
    ∧ fs wm = fs w.
Proof.
  unfold try_except. cbn [run]. rewrite run_bind. cbn [run get_world].
  rewrite run_bind. destruct (magick_found w) eqn:Hm; cbn [run emit raise].
  - unfold mkdir. rewrite run_bind. cbn [run get_world fs].
    destruct (fs w !! pd) as [d|] eqn:Hpd.
    + cbn [run raise Status_fail]. intros [= <- <-]. right. right. by split_and!.
    + rewrite run_bind. cbn [run set_fs emit fs]. intros [= <- <-]. left. by split_and!.
  - cbn [Status_fail run raise]. intros [= <- <-]. right. left. by split_and!.
Qed.

Lemma keeps_dirs_make_diffs clips path max_num fl :
  respects keeps_dirs (make_diffs clips path max_num fl).
Proof.
  intros w. unfold make_diffs. rewrite run_bind.
  case_decide; [done|]. rewrite run_ret, run_bind.
  match goal with |- context [run (try_except ?m ?h) w] =>
    destruct (run (try_except m h) w) as [wm o] eqn:Htry end.
  apply run_probe_mkdir in Htry
    as [(-> & _ & Hnone & Hfm)|[(-> & _ & ->)|(-> & _ & _ & Hfm)]];
    [|done|by apply keeps_dirs_same].
  rewrite run_bind. cbn [run get_world].
  destruct (map _ _) as [|a [|b [|c l]]];
    try (by apply (keeps_dirs_fresh _ _ (path_join path "diffs") ∅)).
  rewrite run_bind. cbn [run Status_info emit].
  match goal with |- context [run (SubProcessAsync ?pd ?mx ?jobs) ?w2] =>
    destruct (run_SubProcessAsync pd mx jobs w2 ∅) as (w3 & Hrun3 & Hfs3) end.
  { cbn [fs]. by rewrite Hfm, lookup_insert_eq. }
  rewrite Hrun3. cbn [fst]. cbn [fs] in Hfs3.
  eapply (keeps_dirs_fresh _ _ (path_join path "diffs")); [done|].
  by rewrite Hfs3, Hfm, insert_insert_eq.
Qed.

Lemma run_upload_slowpics_fs clips path fl mc cn pub w :
  ∃ w', run (upload_slowpics clips path fl mc cn pub) w = (w', Ok tt)
    ∧ fs w'
      = <[path := <["slow.pics.url"
                    := TextFile ("[InternetShortcut]" +:+ newline +:+ "URL="
                                 +:+ "https://slow.pics/c/" +:+ slowpics_reply w)]>
                    (default ∅ (fs w !! path))]> (fs w).
Proof.
  unfold upload_slowpics. rewrite run_bind. cbn [run get_world].
  rewrite run_bind. cbn [run emit].
  rewrite run_bind. cbn [run Status_info emit].
  rewrite run_bind. cbn [run emit].
  rewrite run_bind. cbn [run Status_info emit].
  rewrite run_bind. unfold write_file.
  rewrite run_bind. cbn [run get_world]. rewrite run_bind.
  cbn [run set_fs emit Status_info fs events].
  eexists. split; reflexivity.
Qed.




(** X8. When the comparison folder exists already, [make_comps] raises
    [ValueError] as soon as the frame list is made: it stops in the world the
    sampling left, whose disk is the one of the start, so no directory is
    made and no image is written. *)
Theorem existing_folder_rejected
    clips path num frames pts bt writer mc sp cn pub w w1 mf :
  run (plan_frames clips num frames pts) w = (w1, Ok mf) →
  is_Some (fs w !! path) →
  run (make_comps clips path num frames pts bt writer mc sp cn pub) w
  = (w1, Raised ValueError)
  ∧ fs w1 = fs w.
Proof.
  intros Hplan [d Hd].
  pose proof (plan_frames_frame clips num frames pts w) as [Hfs1 _].
  rewrite Hplan in Hfs1. cbn [fst] in Hfs1. split; [|done].
  unfold make_comps. rewrite (run_bind_eq _ _ _ _ _ Hplan).
  rewrite run_bind. unfold extract_all. rewrite run_bind.
  unfold try_except, mkdir. cbn [run]. rewrite run_bind. cbn [run get_world].
  by rewrite Hfs1, Hd.
Qed.

Lemma existing_folder_rejected_witness :
  let w0 := {| fs := {["comps" := ∅]}; random := [7];
               magick_found := true; slowpics_reply := "Ab1"; events := [] |} in
  let w1 := {| fs := {["comps" := ∅]}; random := [];
               magick_found := true; slowpics_reply := "Ab1"; events := [] |} in
  run (make_comps two_clips "comps" 1 None None false OPENCV false false "col" true) w0
  = (w1, Raised ValueError)
  ∧ fs w1 = fs w0.
Proof.
  intros w0 w1.
  apply (existing_folder_rejected two_clips "comps" 1 None None false OPENCV false
           false "col" true w0 w1 (7, [7])).
  - vm_compute. reflexivity.
  - eexists. reflexivity.
Defined.

(** X9. With [magick_compare] set, at most two clips and no [magick] to
    start, [make_comps] raises [FileNotFoundError] in the world the
    extraction left: the images of the clips are written, the diffs directory
    is not made and nothing is uploaded. *)
Theorem missing_magick_rejected_after_extraction
    clips path num frames pts bt writer sp cn pub w w1 w2 max_num fl :
  length clips ≤ 2 → magick_found w = false →
  run (plan_frames clips num frames pts) w = (w1, Ok (max_num, fl)) →
  run (extract_all clips path bt writer max_num fl) w1 = (w2, Ok tt) →
  run (make_comps clips path num frames pts bt writer true sp cn pub) w
  = (w2, Raised FileNotFoundError).
Proof.
  intros Hlen Hm Hplan Hext.
  pose proof (plan_frames_frame clips num frames pts w) as [_ [Hm1 _]].
  rewrite Hplan in Hm1. cbn [fst] in Hm1.
  pose proof (extract_all_tools clips path bt writer max_num fl w1) as [Hm2 _].
  rewrite Hext in Hm2. cbn [fst] in Hm2.
  unfold make_comps.
  rewrite (run_bind_eq _ _ _ _ _ Hplan). cbn [fst snd].
  rewrite (run_bind_eq _ _ _ _ _ Hext).
  rewrite run_bind. unfold make_diffs. rewrite run_bind.
  rewrite decide_False by lia. rewrite run_ret, run_bind.
  unfold try_except. cbn [run]. rewrite run_bind. cbn [run get_world].
  rewrite run_bind. by rewrite Hm2, Hm1, Hm.
Qed.

Lemma missing_magick_rejected_after_extraction_witness :
  let w0 := {| fs := ∅; random := [7]; magick_found := false;
               slowpics_reply := "Ab1"; events := [] |} in
  let w1 := {| fs := ∅; random := []; magick_found := false;
               slowpics_reply := "Ab1"; events := [] |} in
  run (make_comps two_clips "comps" 1 None None false OPENCV true true "col" true) w0
  = ((run (extract_all two_clips "comps" false OPENCV 7 [7]) w1).1,
     Raised FileNotFoundError).
Proof.
  intros w0 w1.
  apply (missing_magick_rejected_after_extraction two_clips "comps" 1 None None false
           OPENCV true "col" true w0 w1 _ 7 [7]).
  - vm_compute. lia.
  - reflexivity.
  - vm_compute. reflexivity.
  - vm_compute. reflexivity.
Defined.



(** * Counts that select nothing, and file names *)

Lemma select_nothing clips nframes k pts rnd :
  (k ≤ 0)%Z →
  _select_samples_with_picture_types clips nframes k pts rnd = (Ok ∅, rnd).
Proof.
  intros Hk. unfold _select_samples_with_picture_types, select_run.
  cbn [sample_loop].
  rewrite decide_False by (cbn [sel_init samples]; rewrite size_empty; lia).
  reflexivity.
Qed.

Lemma make_samples_filtered clips lens num pts w :
  truthy pts = true →
  run (make_samples clips lens num pts) w
  = let '(o, r) := _select_samples_with_picture_types (map snd clips) (set_pop lens)
                     num (opt_list pts) (random w) in
    ({| fs := fs w; random := r; magick_found := magick_found w;
        slowpics_reply := slowpics_reply w;
        events := events w
                  ++ [EInfo "make_comps: Make samples according to specified picture types..."] |},
     o).
Proof.
  intros Hpt. unfold make_samples. rewrite Hpt, run_bind.
  cbn [run Status_info emit]. unfold with_random. cbn [run random fs magick_found
    slowpics_reply events]. reflexivity.
Qed.

(** X11. With clips of one length, a count of zero or less and no extra
    frames, [make_comps] raises [ValueError], with or without a picture-type
    filter: the sample set is empty (or [random.sample] refuses a negative
    count) and [max] of the empty set fails. No random integer is drawn and
    the disk is left as it was. *)
Theorem empty_selection_rejected
    clips path num frames pts bt writer mc sp cn pub w :
  size (list_to_set (map (fun c => num_frames c.2) clips) : gset nat) = 1 →
  truthy frames = false → (num ≤ 0)%Z →
  ∃ w',
    run (make_comps clips path num frames pts bt writer mc sp cn pub) w
    = (w', Raised ValueError)
    ∧ fs w' = fs w ∧ random w' = random w.
Proof.
  intros Hlens Hfr Hnum. unfold make_comps, plan_frames.
  rewrite !run_bind. rewrite decide_False by (by intros ?).
  rewrite run_ret, run_bind.
  destruct (truthy pts) eqn:Hpt.
  - rewrite make_samples_filtered by done.
    rewrite select_nothing by done. unfold add_frames. rewrite Hfr.
    rewrite decide_True by apply elements_empty. cbn [run raise].
    eexists. split; [reflexivity|]. done.
  - rewrite make_samples_unfiltered by done. unfold random_sample.
    case_decide as Hrange.
    + replace (Z.to_nat num) with 0 by lia. cbn [sample_pool].
      unfold add_frames. rewrite Hfr. cbn [list_to_set foldr].
      rewrite decide_True by apply elements_empty. cbn [run raise].
      eexists. split; [reflexivity|]. done.
    + eexists. split; [reflexivity|]. done.
Qed.

Lemma empty_selection_rejected_witness :
  ∃ w',
    run (make_comps two_clips "comps" 0 None (Some ["I"]) false OPENCV false false
           "col" true) (world_init [5; 3])
    = (w', Raised ValueError)
    ∧ fs w' = fs (world_init [5; 3]) ∧ random w' = random (world_init [5; 3]).
Proof.
  apply (empty_selection_rejected two_clips "comps" 0 None (Some ["I"]) false OPENCV
           false false "col" true (world_init [5; 3])).
  - vm_compute. reflexivity.
  - reflexivity.
  - lia.
Defined.

(** X12. Without a picture-type filter, a count that is negative or larger
    than the length of the clips makes [make_comps] raise [ValueError] (the
    one of [random.sample]), whatever extra frames are given, in the world it
    started in: nothing is drawn, made or written. *)
Theorem oversized_count_rejected
    clips L path num frames pts bt writer mc sp cn pub w :
  clips ≠ [] → Forall (fun c => num_frames c.2 = L) clips →
  truthy pts = false → (num < 0 ∨ Z.of_nat L < num)%Z →
  run (make_comps clips path num frames pts bt writer mc sp cn pub) w
  = (w, Raised ValueError).
Proof.
  intros Hne Hall Hpt Hnum. unfold make_comps, plan_frames.
  rewrite !run_bind. rewrite (lens_singleton clips L) by done.
  rewrite size_singleton, decide_False by (by intros ?). rewrite run_ret, run_bind.
  rewrite make_samples_unfiltered by done. rewrite set_pop_singleton.
  unfold random_sample. rewrite length_seq, decide_False by lia.
  by destruct w.
Qed.

Lemma oversized_count_rejected_witness :
  run (make_comps two_clips "comps" 21 (Some [3]) None false OPENCV false false
         "col" true) (world_init [5; 3])
  = (world_init [5; 3], Raised ValueError).
Proof.
  apply (oversized_count_rejected two_clips 20 "comps" 21 (Some [3]) None false OPENCV
           false false "col" true (world_init [5; 3])).
  - discriminate.
  - repeat constructor.
  - reflexivity.
  - right. lia.
Defined.

Lemma sorted_names_NoDup {A} (files : list (string * A)) :
  StronglySorted (fun a b => String.compare a.1 b.1 = Lt) files → NoDup files.*1.
Proof.
  induction 1 as [|a l Hs IH Hall]; [constructor|].
  cbn. constructor; [|done].
  intros (b & Hab & Hb)%list_elem_of_fmap.
  rewrite Forall_forall in Hall. specialize (Hall b Hb). cbn in Hall.
  rewrite Hab, compare_refl in Hall. done.
Qed.

Lemma extract_files_sorted writer name bt max_num fl :
  (writer = IMWRI → no_percent name = true) →
  StronglySorted lt fl → (∀ f, f ∈ fl → f ≤ max_num) →
  StronglySorted (fun a b : string * content => String.compare a.1 b.1 = Lt)
    (extract_files writer name bt max_num fl).
Proof.
  intros Hname Hs Hle. rewrite extract_files_names by done.
  apply (sorted_by_frame _ _ max_num); [|done..].
  intros f g. apply frame_file_lt.
Qed.

(** X13. For frames in ascending order, none above the greatest frame
    number that sets the padding, the files a writer leaves for a clip have
    names in strictly ascending order, hence pairwise distinct: no image
    overwrites another, and sorting the directory by name gives back the
    order of the frames. The same holds for the names of the diff images. *)
Theorem image_files_follow_frames writer name bt max_num fl :
  (writer = IMWRI → no_percent name = true) →
  StronglySorted lt fl → (∀ f, f ∈ fl → f ≤ max_num) →
  StronglySorted (fun a b : string * content => String.compare a.1 b.1 = Lt)
    (extract_files writer name bt max_num fl)
  ∧ NoDup (extract_files writer name bt max_num fl).*1
  ∧ length (extract_files writer name bt max_num fl) = length fl
  ∧ StronglySorted (fun a b => String.compare a b = Lt) (map (diff_name max_num) fl)
  ∧ NoDup (map (diff_name max_num) fl).
Proof.
  intros Hname Hs Hle.
  pose proof (extract_files_sorted writer name bt max_num fl Hname Hs Hle) as Hsorted.
  assert (StronglySorted (fun a b : string * unit => String.compare a.1 b.1 = Lt)
            (map (fun f => (diff_name max_num f, tt)) fl)) as Hdiff.
  { apply (sorted_by_frame _ _ max_num); [|done..]. intros f g. apply diff_name_lt. }
  assert (map (diff_name max_num) fl
          = (map (fun f => (diff_name max_num f, tt)) fl).*1) as Hfst.
  { clear. induction fl as [|f fl IH]; [done|]. cbn. by f_equal. }
  split_and!.
  - done.
  - by apply sorted_names_NoDup.
  - rewrite extract_files_names by done. apply length_map.
  - clear -Hs Hle. induction Hs as [|f fl Hs IH Hall]; [constructor|].
    cbn [map]. constructor.
    + apply IH. intros g Hg. apply Hle. by right.
    + rewrite Forall_forall in Hall. apply Forall_forall.
      intros a (g & -> & Hg)%list_elem_of_fmap.
      apply diff_name_lt; [by apply Hall|]. apply Hle. by right.
  - rewrite Hfst. by apply sorted_names_NoDup.
Qed.

Lemma image_files_follow_frames_witness :
  StronglySorted (fun a b : string * content => String.compare a.1 b.1 = Lt)
    (extract_files IMWRI "A" false 12 [3; 5; 12])
  ∧ NoDup (extract_files IMWRI "A" false 12 [3; 5; 12]).*1
  ∧ length (extract_files IMWRI "A" false 12 [3; 5; 12]) = length [3; 5; 12]
  ∧ StronglySorted (fun a b => String.compare a b = Lt) (map (diff_name 12) [3; 5; 12])
  ∧ NoDup (map (diff_name 12) [3; 5; 12]).
Proof.
  apply (image_files_follow_frames IMWRI "A" false 12 [3; 5; 12]).
  - intros _. reflexivity.
  - repeat constructor; lia.
  - intros f Hf. apply list_elem_of_In in Hf. simpl in Hf.
    destruct Hf as [<-|[<-|[<-|[]]]]; lia.
Defined.

(** * What a run that ends well leaves on the disk and in the form *)



Lemma path_join_inj path a b : path_join path a = path_join path b → a = b.
Proof.
  unfold path_join. intros Heq.
  apply (inj (String.app path)) in Heq. by apply (inj (String.app "/")) in Heq.
Qed.



Lemma make_diffs_tools clips path max_num fl w :
  same_tools w (run (make_diffs clips path max_num fl) w).1.
Proof.
  apply (respects_make_diffs same_tools (fun _ => True));
    auto using same_tools_emit, same_tools_set_fs.
Qed.

(** The steps of a run of [make_comps] that ends well. *)
Lemma run_make_comps_Ok clips path num frames pts bt writer mc sp cn pub w w' :
  run (make_comps clips path num frames pts bt writer mc sp cn pub) w = (w', Ok tt) →
  ∃ w1 w2 w3 max_num fl,
    run (plan_frames clips num frames pts) w = (w1, Ok (max_num, fl))
    ∧ run (extract_all clips path bt writer max_num fl) w1 = (w2, Ok tt)
    ∧ run (if mc then make_diffs clips path max_num fl else mret tt) w2 = (w3, Ok tt)
    ∧ run (if sp then upload_slowpics clips path fl mc cn pub else mret tt) w3
      = (w', Ok tt)
    ∧ fs w1 = fs w ∧ keeps_dirs w2 w3
    ∧ same_tools w w3
    ∧ (∀ p, p ≠ path → fs w' !! p = fs w3 !! p).
Proof.
  intros Hrun. unfold make_comps in Hrun.
  apply run_bind_Ok in Hrun as ([max_num fl] & w1 & Hplan & Hrun).
  cbn [fst snd] in Hrun.
  apply run_bind_Ok in Hrun as ([] & w2 & Hext & Hrun).
  apply run_bind_Ok in Hrun as ([] & w3 & Hdiff & Hup).
  exists w1, w2, w3, max_num, fl. split_and!; try done.
  - pose proof (plan_frames_frame clips num frames pts w) as [H _].
    by rewrite Hplan in H.
  - destruct mc.
    + pose proof (keeps_dirs_make_diffs clips path max_num fl w2) as H.
      by rewrite Hdiff in H.
    + rewrite run_ret in Hdiff. by injection Hdiff as <-.
  - pose proof (plan_frames_frame clips num frames pts w) as [_ H1].
    rewrite Hplan in H1.
    pose proof (extract_all_tools clips path bt writer max_num fl w1) as H2.
    rewrite Hext in H2.
    etrans; [exact H1|]. etrans; [exact H2|].
    destruct mc.
    + pose proof (make_diffs_tools clips path max_num fl w2) as H3.
      by rewrite Hdiff in H3.
    + rewrite run_ret in Hdiff. by injection Hdiff as <-.
  - intros p Hp. destruct sp.
    + destruct (run_upload_slowpics_fs clips path fl mc cn pub w3) as (w4 & Hrun4 & Hfs4).
      rewrite Hrun4 in Hup. injection Hup as <-.
      by rewrite Hfs4, lookup_insert_ne.
    + rewrite run_ret in Hup. by injection Hup as <-.
Qed.





(** X16. After a run of [make_comps] with [slowpics] that ends well, the
    comparison folder holds the file [slow.pics.url], an internet shortcut to
    the page of the comparison: the address of the service followed by the
    identifier the service answered to the upload. *)
Theorem shortcut_file_written
    clips path num frames pts bt writer mc cn pub w w' :
  run (make_comps clips path num frames pts bt writer mc true cn pub) w = (w', Ok tt) →
  ∃ d, fs w' !! path = Some d
       ∧ d !! "slow.pics.url"
         = Some (TextFile ("[InternetShortcut]" +:+ newline +:+ "URL="
                           +:+ "https://slow.pics/c/" +:+ slowpics_reply w)).
Proof.
  intros Hrun.
  apply run_make_comps_Ok in Hrun
    as (w1 & w2 & w3 & max_num & fl & _ & _ & _ & Hup & _ & _ & [_ Hreply] & _).
  destruct (run_upload_slowpics_fs clips path fl mc cn pub w3) as (w4 & Hrun4 & Hfs4).
  rewrite Hrun4 in Hup. injection Hup as <-.
  eexists. split; [by rewrite Hfs4, lookup_insert_eq|].
  by rewrite lookup_insert_eq, Hreply.
Qed.

Lemma shortcut_file_written_witness :
  ∃ d, fs demo_upload_run.1 !! "comps" = Some d
       ∧ d !! "slow.pics.url"
         = Some (TextFile ("[InternetShortcut]" +:+ newline +:+ "URL="
                           +:+ "https://slow.pics/c/"
                           +:+ slowpics_reply (world_init [5; 3; 100]))).
Proof.
  apply (shortcut_file_written [("A", gop_clip); ("B", gop_clip)] "comps" 3
           (Some [7; 12]) None false IMWRI true "col" true (world_init [5; 3; 100])
           demo_upload_run.1).
  vm_compute. reflexivity.
Defined.

(** * The form posted for any number of clips *)





(** * The progress report of the extraction *)

(** X19. For a frame count [endvalue] above zero and a position
    [0 <= value <= endvalue], [_progress_update_func] prints a percentage
    between 0 and 100, which is 100 at the last position only. With
    [endvalue = 0] the division fails. *)
Theorem progress_percentage_bounded value endvalue :
  (0 < endvalue)%Z → (0 ≤ value ≤ endvalue)%Z →
  ∃ pct,
    _progress_update_func value endvalue
    = Some (String (ascii_of_nat 13) "Extrating image: " +:+ str_int value
            +:+ "/" +:+ str_int endvalue +:+ " ~ " +:+ str_int pct +:+ "%")
    ∧ (0 ≤ pct ≤ 100)%Z
    ∧ (pct = 100%Z ↔ value = endvalue)
    ∧ _progress_update_func value 0 = None.
Proof.
  intros Hend Hval. exists (100 * value / endvalue)%Z.
  unfold _progress_update_func. rewrite decide_False by lia.
  split; [done|].
  pose proof (Z.div_mod (100 * value) endvalue ltac:(lia)) as Hdm.
  pose proof (Z.mod_pos_bound (100 * value) endvalue Hend) as Hmod.
  split_and!.
  - apply Z.div_pos; lia.
  - apply Z.div_le_upper_bound; lia.
  - split.
    + intros Hpct. rewrite Hpct in Hdm. lia.
    + intros ->. by rewrite Z.div_mul by lia.
  - done.
Qed.

Lemma progress_percentage_bounded_witness :
  ∃ pct,
    _progress_update_func 2 3
    = Some (String (ascii_of_nat 13) "Extrating image: " +:+ str_int 2
            +:+ "/" +:+ str_int 3 +:+ " ~ " +:+ str_int pct +:+ "%")
    ∧ (0 ≤ pct ≤ 100)%Z
    ∧ (pct = 100%Z ↔ 2%Z = 3%Z)
    ∧ _progress_update_func 2 0 = None.
Proof. apply (progress_percentage_bounded 2 3); lia. Defined.

(** * vardautomation.utils: the colour range and the colourspace *)

Lemma shiftl_pow2 a n : (0 ≤ n)%Z → Z.shiftl a n = (a * 2 ^ n)%Z.
Proof. apply Z.shiftl_mul_pow2. Qed.

Lemma limited_range_Return bits lo hi :
  Properties.limited_range bits = Properties.Return (lo, hi) →
  (8 ≤ bits)%Z ∧ lo = (16 * 2 ^ (bits - 8))%Z ∧ hi = (235 * 2 ^ (bits - 8))%Z.
Proof.
  unfold Properties.limited_range, Properties.lshift.
  case_decide as Hneg; [done|]. intros [= <- <-].
  rewrite !shiftl_pow2 by lia. split_and!; [lia|done..].
Qed.

Lemma full_range_Return bits lo hi :
  Properties.full_range bits = Properties.Return (lo, hi) →
  (0 ≤ bits)%Z ∧ lo = 0%Z ∧ hi = (2 ^ bits - 1)%Z.
Proof.
  unfold Properties.full_range, Properties.lshift.
  case_decide as Hneg; [done|]. intros [= <- <-].
  rewrite shiftl_pow2 by lia. split_and!; [lia|done|lia].
Qed.

(** X20. When [Properties.get_colour_range] returns, for a clip of at least
    one bit per sample, the pair returned is a range inside the values of
    that bit depth: [0 <= min_luma < max_luma <= 2^bits - 1]. It is either
    the limited range, 16 and 235 scaled to the depth (which needs at least
    8 bits), or the full range from 0 to [2^bits - 1]. *)
Theorem colour_range_within_depth params clip f min_luma max_luma :
  Properties.format clip = Some f →
  (1 ≤ Properties.bits_per_sample f)%Z →
  Properties.get_colour_range params clip = Properties.Return (min_luma, max_luma) →
  (0 ≤ min_luma < max_luma)%Z
  ∧ (max_luma ≤ 2 ^ Properties.bits_per_sample f - 1)%Z
  ∧ ((8 ≤ Properties.bits_per_sample f)%Z
     ∧ min_luma = (16 * 2 ^ (Properties.bits_per_sample f - 8))%Z
     ∧ max_luma = (235 * 2 ^ (Properties.bits_per_sample f - 8))%Z
     ∨ min_luma = 0%Z ∧ max_luma = (2 ^ Properties.bits_per_sample f - 1)%Z).
Proof.
  intros Hf Hbits. unfold Properties.get_colour_range, Properties.get_depth.
  rewrite Hf. set (bits := Properties.bits_per_sample f) in *.
  intros Hrun.
  assert (Properties.limited_range bits = Properties.Return (min_luma, max_luma)
          ∨ Properties.full_range bits = Properties.Return (min_luma, max_luma))
    as [Hlim|Hfull].
  { destruct (Properties.index "--range" params) as [i|].
    - destruct (params !! (i + 1)) as [r|]; [|done].
      repeat case_decide; auto; done.
    - destruct (Properties.props clip !! "_ColorRange") as [c|]; [|done].
      repeat case_decide; auto; done. }
  - apply limited_range_Return in Hlim as (H8 & -> & ->).
    assert (0 < 2 ^ (bits - 8))%Z as Hpos by (apply Z.pow_pos_nonneg; lia).
    assert (2 ^ bits = 256 * 2 ^ (bits - 8))%Z as Hpow.
    { replace bits with (8 + (bits - 8))%Z at 1 by lia.
      rewrite Z.pow_add_r by lia. done. }
    split_and!; [lia..|]. left. done.
  - apply full_range_Return in Hfull as (H0 & -> & ->).
    assert (2 ^ 1 ≤ 2 ^ bits)%Z as Hpow by (apply Z.pow_le_mono_r; lia).
    change (2 ^ 1)%Z with 2%Z in Hpow.
    split_and!; [lia..|]. right. done.
Qed.

Lemma colour_range_within_depth_witness :
  (0 ≤ 64 < 940)%Z
  ∧ (940 ≤ 2 ^ 10 - 1)%Z
  ∧ ((8 ≤ 10)%Z ∧ 64%Z = (16 * 2 ^ (10 - 8))%Z ∧ 940%Z = (235 * 2 ^ (10 - 8))%Z
     ∨ 64%Z = 0%Z ∧ 940%Z = (2 ^ 10 - 1)%Z).
Proof.
  apply (colour_range_within_depth ["--preset"; "slow"; "--range"; "limited"]
           {| Properties.format :=
                Some {| Properties.color_family := Properties.YUV;
                        Properties.bits_per_sample := 10;
                        Properties.subsampling_w := 1;
                        Properties.subsampling_h := 1 |};
              Properties.props := {["_ColorRange" := 0%Z]} |}
           {| Properties.color_family := Properties.YUV;
              Properties.bits_per_sample := 10;
              Properties.subsampling_w := 1;
              Properties.subsampling_h := 1 |} 64 940).
  - reflexivity.
  - simpl. lia.
  - vm_compute. reflexivity.
Defined.

Lemma index_app_first pre rest :
  "--range" ∉ pre →
  Properties.index "--range" (pre ++ "--range" :: rest) = Some (length pre).
Proof.
  induction pre as [|y pre IH]; intros Hnot; cbn [app Properties.index length].
  - by rewrite decide_True.
  - rewrite decide_False by set_solver. rewrite IH by set_solver. done.
Qed.

(** X21. The first [--range] of the encoder settings decides alone: the
    word after it gives the range, whatever the settings before and after
    and whatever [_ColorRange] the clip carries, and with nothing after it
    the lookup fails with [IndexError]. *)
Theorem range_setting_overrides_clip pre clip :
  "--range" ∉ pre →
  (∀ word rest,
     Properties.get_colour_range (pre ++ "--range" :: word :: rest) clip
     = Properties.get_colour_range ["--range"; word]
         {| Properties.format := Properties.format clip; Properties.props := ∅ |})
  ∧ (∀ f, Properties.format clip = Some f →
       Properties.get_colour_range (pre ++ ["--range"]) clip
       = Properties.Raise Properties.IndexError).
Proof.
  intros Hnot. split.
  - intros word rest. unfold Properties.get_colour_range, Properties.get_depth.
    cbn [Properties.format]. destruct (Properties.format clip) as [f|]; [|done].
    rewrite index_app_first by done. cbn [Properties.index].
    rewrite decide_True by done. cbn [lookup list_lookup Nat.add].
    replace (length pre + 1) with (S (length pre)) by lia.
    rewrite lookup_app_r by lia.
    replace (S (length pre) - length pre) with 1 by lia. done.
  - intros f Hf. unfold Properties.get_colour_range, Properties.get_depth.
    rewrite Hf, index_app_first by done.
    rewrite lookup_ge_None_2; [done|]. rewrite length_app. simpl. lia.
Qed.

Lemma range_setting_overrides_clip_witness :
  Properties.get_colour_range ["--preset"; "slow"; "--range"; "full"; "--range"; "limited"]
    {| Properties.format :=
         Some {| Properties.color_family := Properties.YUV;
                 Properties.bits_per_sample := 8;
                 Properties.subsampling_w := 1;
                 Properties.subsampling_h := 1 |};
       Properties.props := {["_ColorRange" := 1%Z]} |}
  = Properties.Return (0, 255)%Z.
Proof.
  assert ("--range" ∉ ["--preset"; "slow"]) as Hnot.
  { intros H. apply list_elem_of_In in H. simpl in H.
    destruct H as [H|[H|[]]]; discriminate H. }
  rewrite (proj1 (range_setting_overrides_clip ["--preset"; "slow"] _ Hnot)
             "full" ["--range"; "limited"]).
  vm_compute. reflexivity.
Defined.

(** X22. For a clip of constant format, [Properties.get_csp] raises
    [ValueError] exactly when the chroma subsampling is none of (0, 0),
    (1, 0) and (1, 1), whatever the colour family: the entry for YUV is
    computed before the family is looked up. When it returns, the name is
    one of the five the encoder knows. *)
Theorem csp_needs_known_subsampling clip f :
  Properties.format clip = Some f →
  (Properties.get_csp clip = Properties.Raise Properties.ValueError
   ↔ ¬ ((Properties.subsampling_w f = 0 ∧ Properties.subsampling_h f = 0)
        ∨ (Properties.subsampling_w f = 1 ∧ Properties.subsampling_h f = 0)
        ∨ (Properties.subsampling_w f = 1 ∧ Properties.subsampling_h f = 1))%Z)
  ∧ ∀ name, Properties.get_csp clip = Properties.Return name →
      name ∈ ["i400"; "i444"; "i422"; "i420"; "rgb"].
Proof.
  intros Hf. unfold Properties.get_csp, Properties._get_csp_subsampled.
  rewrite Hf. split.
  - repeat case_decide; destruct (Properties.color_family f);
      split; try done; try tauto.
  - intros name.
    repeat case_decide; destruct (Properties.color_family f);
      intros [= <-] || done; set_solver.
Qed.

Lemma csp_needs_known_subsampling_witness :
  Properties.get_csp
    {| Properties.format :=
         Some {| Properties.color_family := Properties.GRAY;
                 Properties.bits_per_sample := 8;
                 Properties.subsampling_w := 2;
                 Properties.subsampling_h := 0 |};
       Properties.props := ∅ |}
  = Properties.Raise Properties.ValueError.
Proof.
  apply (proj1 (csp_needs_known_subsampling
                  {| Properties.format :=
                       Some {| Properties.color_family := Properties.GRAY;
                               Properties.bits_per_sample := 8;
                               Properties.subsampling_w := 2;
                               Properties.subsampling_h := 0 |};
                     Properties.props := ∅ |}
                  {| Properties.color_family := Properties.GRAY;
                     Properties.bits_per_sample := 8;
                     Properties.subsampling_w := 2;
                     Properties.subsampling_h := 0 |} eq_refl)).
  simpl. lia.
Defined.
